(** * gcloud-node, [lib/datastore/entity.js]: the entity/key codec

    A shallow embedding of the Datastore entity module: the [Key]
    constructor and its derived [path], the conversions between keys,
    native values, entities and their protocol forms, and the query
    compiler, followed by the properties established about them.

    JavaScript is dynamically typed and its functions may throw.  Values
    are therefore embedded as a tagged union ([prim], [value]), a thrown
    exception as the [Throw] branch of [result], and the built-ins the
    module calls ([is.number], [arrify], [parseInt], [Number], [Date],
    [Buffer]) as functions of [Module JS]. *)

From Stdlib Require Import ZArith String Ascii List Bool Lia.
From Stdlib.Strings Require Import Byte.
From Equations Require Import Equations.
Import ListNotations.

Local Open Scope string_scope.
Local Open Scope list_scope.
Local Open Scope Z_scope.

(** ** The JavaScript run time *)

Module JS.

(** *** Numbers

    A finite JavaScript number is embedded as the exact decimal
    [m * 10^e]; every binary64 value prints as such a decimal
    ([Number.prototype.toString]) and is read back from it.  The model is
    exact: it agrees with binary64 wherever binary64 arithmetic does not
    round, in particular on integers below [2^53].  Rounding and the sign
    of zero are outside the model: there is one zero, [Fin 0 0], and no
    [-0]. *)

Inductive number : Type :=
| NaN
| Infinity (negative : bool)
| Fin (m : Z) (e : Z).

(** Canonical form: no trailing zero in the mantissa, and zero is [Fin 0 0]. *)
Fixpoint strip_zeros (fuel : nat) (m e : Z) : Z * Z :=
  match fuel with
  | O => (m, e)
  | S fuel' =>
      if m mod 10 =? 0 then strip_zeros fuel' (m / 10) (e + 1) else (m, e)
  end.

Definition finite (m e : Z) : number :=
  if m =? 0 then Fin 0 0
  else let (m', e') := strip_zeros (S (Z.to_nat (Z.log2 (Z.abs m)))) m e in
       Fin m' e'.

Definition canonical (n : number) : bool :=
  match n with
  | Fin m e => if m =? 0 then e =? 0 else negb (m mod 10 =? 0)
  | _ => true
  end.

Definition of_Z (z : Z) : number := finite z 0.

(** [x === y] on numbers: [NaN] differs from everything, itself included. *)
Definition num_eqb (x y : number) : bool :=
  match x, y with
  | Infinity s, Infinity s' => Bool.eqb s s'
  | Fin m e, Fin m' e' =>
      if e <=? e' then m =? m' * 10 ^ (e' - e) else m * 10 ^ (e - e') =? m'
  | _, _ => false
  end.

(** [x > y]. *)
Definition num_gtb (x y : number) : bool :=
  match x, y with
  | NaN, _ | _, NaN => false
  | Infinity s, Infinity s' => negb s && s'
  | Infinity s, Fin _ _ => negb s
  | Fin _ _, Infinity s' => s'
  | Fin m e, Fin m' e' =>
      if e <=? e' then m' * 10 ^ (e' - e) <? m else m' <? m * 10 ^ (e - e')
  end.

(** [x % 1]: the fractional part, with the sign of [x]. *)
Definition rem1 (x : number) : number :=
  match x with
  | Fin m e => if 0 <=? e then Fin 0 0 else finite (Z.rem m (10 ^ (- e))) e
  | _ => NaN
  end.

(** [x * 10^k]; [x * 1000] and [x / 1000] are [scale10 x 3] and
    [scale10 x (-3)], both exact on decimals. *)
Definition scale10 (x : number) (k : Z) : number :=
  match x with
  | Fin m e => finite m (e + k)
  | _ => x
  end.

Definition times1000 (x : number) : number := scale10 x 3.
Definition over1000 (x : number) : number := scale10 x (-3).

(** [ToIntegerOrInfinity] restricted to finite numbers: truncation
    towards zero. *)
Definition trunc (x : number) : number :=
  match x with
  | Fin m e => if 0 <=? e then x else finite (Z.quot m (10 ^ (- e))) 0
  | _ => x
  end.

(** [TimeClip]: the time value a [Date] holds. *)
Definition TimeClip (t : number) : number :=
  match t with
  | Fin _ _ =>
      if num_gtb t (Fin 864 13) || num_gtb (Fin (-864) 13) t then NaN
      else trunc t
  | _ => NaN
  end.

(** *** Numbers and strings *)

Definition digit_char (d : Z) : ascii := ascii_of_nat (48 + Z.to_nat d).

(** The value of a character as a digit of the given radix. *)
Definition digit_val (radix : Z) (c : ascii) : option Z :=
  let n := Z.of_nat (nat_of_ascii c) in
  let v := if (48 <=? n) && (n <=? 57) then n - 48
           else if (97 <=? n) && (n <=? 122) then n - 87
           else if (65 <=? n) && (n <=? 90) then n - 55
           else radix in
  if v <? radix then Some v else None.

Fixpoint digits_aux (fuel : nat) (n : Z) (acc : string) : string :=
  match fuel with
  | O => acc
  | S fuel' =>
      let acc' := String (digit_char (n mod 10)) acc in
      if n <? 10 then acc' else digits_aux fuel' (n / 10) acc'
  end.

(** The decimal digits of a natural number, most significant first. *)
Definition digits (n : Z) : string :=
  digits_aux (S (Z.to_nat (Z.log2 n))) n "".

Fixpoint zeros (k : nat) : string :=
  match k with
  | O => ""
  | S k' => String "0" (zeros k')
  end.

(** [Number::toString] of the positive decimal [s * 10^e], [s] without a
    trailing zero: with [k] digits and [n = k + e], plain digits when
    [k <= n <= 21], a decimal point inside when [0 < n <= 21], a leading
    [0.] when [-6 < n <= 0], and exponential notation otherwise. *)
Definition toString_pos (s e : Z) : string :=
  let ds := digits s in
  let k := Z.of_nat (String.length ds) in
  let n := k + e in
  if (k <=? n) && (n <=? 21) then
    (ds ++ zeros (Z.to_nat (n - k)))%string
  else if (0 <? n) && (n <=? 21) then
    (substring 0 (Z.to_nat n) ds ++ "." ++
     substring (Z.to_nat n) (Z.to_nat (k - n)) ds)%string
  else if (-6 <? n) && (n <=? 0) then
    ("0." ++ zeros (Z.to_nat (- n)) ++ ds)%string
  else
    let mantissa :=
      if k =? 1 then ds
      else (substring 0 1 ds ++ "." ++ substring 1 (Z.to_nat (k - 1)) ds)%string in
    let sign := if n - 1 <? 0 then "-" else "+" in
    (mantissa ++ "e" ++ sign ++ digits (Z.abs (n - 1)))%string.

Definition numberToString (x : number) : string :=
  match x with
  | NaN => "NaN"
  | Infinity false => "Infinity"
  | Infinity true => "-Infinity"
  | Fin m e =>
      match finite m e with
      | Fin m' e' =>
          if m' =? 0 then "0"
          else if m' <? 0 then ("-" ++ toString_pos (- m') e')%string
          else toString_pos m' e'
      | _ => ""
      end
  end.

(** White space and line terminators among the code units below 256. *)
Definition is_space (c : ascii) : bool :=
  let n := nat_of_ascii c in
  ((9 <=? n) && (n <=? 13) || (n =? 32) || (n =? 160))%nat.

Fixpoint ltrim (s : string) : string :=
  match s with
  | String c s' => if is_space c then ltrim s' else s
  | EmptyString => s
  end.

Fixpoint string_rev_append (s acc : string) : string :=
  match s with
  | String c s' => string_rev_append s' (String c acc)
  | EmptyString => acc
  end.

Definition trim (s : string) : string :=
  string_rev_append (ltrim (string_rev_append (ltrim s) "")) "".

(** The longest prefix of digits: its value on top of [acc], the number
    of digits read, and the rest of the string. *)
Fixpoint scan_digits (radix : Z) (s : string) (acc : Z) (count : nat)
  : Z * nat * string :=
  match s with
  | String c s' =>
      match digit_val radix c with
      | Some d => scan_digits radix s' (acc * radix + d) (S count)
      | None => (acc, count, s)
      end
  | EmptyString => (acc, count, s)
  end.

Definition strip_sign (s : string) : bool * string :=
  match s with
  | String "-" s' => (true, s')
  | String "+" s' => (false, s')
  | _ => (false, s)
  end.

(** [parseInt(s, 10)]: leading white space and a sign are skipped, the
    longest prefix of decimal digits is read and whatever follows is
    ignored; no digit gives [NaN]. *)
Definition parseInt10 (s : string) : number :=
  let (negative, s') := strip_sign (ltrim s) in
  match scan_digits 10 s' 0 0 with
  | (_, O, _) => NaN
  | (z, _, _) => of_Z (if negative then - z else z)
  end.

(** [StrUnsignedDecimalLiteral]: [Infinity], or digits with an optional
    fraction and an optional exponent, the whole string being consumed. *)
Definition unsigned_decimal (negative : bool) (s : string) : number :=
  if String.eqb s "Infinity" then Infinity negative else
  let '(ip, ni, r1) := scan_digits 10 s 0 0 in
  let '(m, nf, r2) :=
    match r1 with
    | String "." r => scan_digits 10 r ip 0
    | _ => (ip, O, r1)
    end in
  let sign := if negative then -1 else 1 in
  match (ni + nf)%nat with
  | O => NaN
  | _ =>
      match r2 with
      | EmptyString => finite (sign * m) (- Z.of_nat nf)
      | String c r =>
          if Ascii.eqb c "e" || Ascii.eqb c "E" then
            let (eneg, r') := strip_sign r in
            match scan_digits 10 r' 0 0 with
            | (_, O, _) => NaN
            | (x, _, EmptyString) =>
                finite (sign * m) ((if eneg then - x else x) - Z.of_nat nf)
            | _ => NaN
            end
          else NaN
      end
  end.

Definition radix_literal (radix : Z) (s : string) : number :=
  match scan_digits radix s 0 0 with
  | (_, O, _) => NaN
  | (z, _, EmptyString) => of_Z z
  | _ => NaN
  end.

(** [StringToNumber]: an empty or blank string is [0]; otherwise a signed
    decimal literal or an unsigned literal of radix 16, 8 or 2. *)
Definition StringToNumber (s : string) : number :=
  match trim s with
  | EmptyString => Fin 0 0
  | String "0" (String c r) as t =>
      if Ascii.eqb c "x" || Ascii.eqb c "X" then radix_literal 16 r
      else if Ascii.eqb c "o" || Ascii.eqb c "O" then radix_literal 8 r
      else if Ascii.eqb c "b" || Ascii.eqb c "B" then radix_literal 2 r
      else unsigned_decimal false t
  | t => let (negative, t') := strip_sign t in unsigned_decimal negative t'
  end.

(** *** Primitive values *)

Inductive prim : Type :=
| PUndefined
| PNull
| PBool (b : bool)
| PNum (n : number)
| PStr (s : string).

(** [ToBoolean]. *)
Definition truthy (p : prim) : bool :=
  match p with
  | PUndefined | PNull => false
  | PBool b => b
  | PNum NaN => false
  | PNum (Infinity _) => true
  | PNum (Fin m _) => negb (m =? 0)
  | PStr s => negb (String.eqb s "")
  end.

(** [a || b]. *)
Definition or_else (a b : prim) : prim := if truthy a then a else b.

(** [value !== null && value !== undefined], the module's [exists]. *)
Definition prim_exists (p : prim) : bool :=
  match p with
  | PUndefined | PNull => false
  | _ => true
  end.

(** [Number(p)]. *)
Definition ToNumber (p : prim) : number :=
  match p with
  | PUndefined => NaN
  | PNull => Fin 0 0
  | PBool b => if b then Fin 1 0 else Fin 0 0
  | PNum n => n
  | PStr s => StringToNumber s
  end.

(** [p.toString()] for a primitive that exists; for [undefined] and
    [null], on which the call would throw and which the decoder never
    reaches, the text of [String(p)]. *)
Definition toString (p : prim) : string :=
  match p with
  | PUndefined => "undefined"
  | PNull => "null"
  | PBool b => if b then "true" else "false"
  | PNum n => numberToString n
  | PStr s => s
  end.

(** The [is] package: [is.number] and [is.string] test the class of the
    value, so [NaN] and the infinities are numbers. *)
Definition is_number (p : prim) : bool :=
  match p with PNum _ => true | _ => false end.

Definition is_string (p : prim) : bool :=
  match p with PStr _ => true | _ => false end.

(** *** Arrays *)

(** [Array.prototype.pop]: the last element and the shortened array;
    [undefined] and no change on an empty array. *)
Definition pop (l : list prim) : prim * list prim :=
  match rev l with
  | [] => (PUndefined, [])
  | x :: r => (x, rev r)
  end.

(** [arrify]: [undefined] and [null] become the empty array. *)
Definition arrify {A : Type} (l : option (list A)) : list A :=
  match l with
  | Some a => a
  | None => []
  end.

(** *** Buffers

    A [Buffer] is its bytes, or the base64 text it was decoded from
    ([new Buffer(text, 'base64')]). *)
Inductive buffer : Type :=
| Bytes (data : list Byte.byte)
| Base64 (text : string).

(** An object field that may be [undefined] or [null]. *)
Inductive maybe (A : Type) : Type :=
| Undefined
| Null
| Just (a : A).
Arguments Undefined {A}.
Arguments Null {A}.
Arguments Just {A} a.

Definition maybe_exists {A : Type} (f : maybe A) : bool :=
  match f with
  | Just _ => true
  | _ => false
  end.

End JS.

Import JS.

Scheme All for option.
Scheme All for list.
Scheme All for prod.

(** ** Keys *)

(** A [Key] object.  A property the constructor did not assign reads as
    [undefined]. *)
Inductive key : Type := mkKey {
  namespace : prim;
  id : prim;
  name : prim;
  kind : prim;
  parent : option key
}.

(** The configuration object handed to the constructor; [path] is
    consumed by it. *)
Record options : Type := mkOptions {
  opt_namespace : prim;
  opt_path : list prim
}.

(** The first step of the constructor: on a path of even length the last
    element is popped as the identifier. *)
Definition pop_identifier (path : list prim) : prim * list prim :=
  if Nat.even (List.length path) then pop path else (PUndefined, path).

Definition inspect {A : Type} (a : A) : {b : A | a = b} := exist _ a eq_refl.

(** [new Key(options)]: the key built and the options object as the
    constructor leaves it. *)
Equations? Key (o : options) : key * options by wf (List.length (opt_path o)) lt :=
  Key o with inspect (pop (snd (pop_identifier (opt_path o)))) := {
    | exist _ (k, []) _ :=
        let identifier := fst (pop_identifier (opt_path o)) in
        (mkKey (opt_namespace o)
               (if is_number identifier then identifier else PUndefined)
               (if is_number identifier then PUndefined
                else if is_string identifier then identifier else PUndefined)
               k None,
         mkOptions (opt_namespace o) [])
    | exist _ (k, x :: rest) _ :=
        let identifier := fst (pop_identifier (opt_path o)) in
        let r := Key (mkOptions (opt_namespace o) (x :: rest)) in
        (mkKey (opt_namespace o)
               (if is_number identifier then identifier else PUndefined)
               (if is_number identifier then PUndefined
                else if is_string identifier then identifier else PUndefined)
               k (Some (fst r)),
         snd r) }.
Proof.
  assert (Hpop : forall l : list prim, (length (snd (pop l)) = length l - 1)%nat).
  { intros l. unfold pop. rewrite <- (length_rev l).
    destruct (rev l) as [|y r]; simpl; [reflexivity|].
    rewrite length_rev. lia. }
  assert (Hid : (length (snd (pop_identifier (opt_path o)))
                 <= length (opt_path o))%nat).
  { unfold pop_identifier. destruct (Nat.even (length (opt_path o))); simpl;
      [rewrite Hpop|]; lia. }
  specialize (Hpop (snd (pop_identifier (opt_path o)))).
  rewrite e in Hpop. simpl in Hpop. lia.
Qed.

(** The getter of [path]: the parent's path, if there is a parent,
    followed by the kind and [name || id]. *)
Fixpoint path (k : key) : list prim :=
  arrify (match parent k with
          | Some p => Some (path p)
          | None => None
          end) ++ [kind k; or_else (name k) (id k)].

(** ** Native values *)

(** The values the codec is handed: primitives, [Date]s (by their time
    value in milliseconds), [Buffer]s, the [Int] and [Double] wrappers
    (by their [val_]), arrays, [Key]s, and plain objects (by their own
    enumerable properties in iteration order). *)
Inductive value : Type :=
| VPrim (p : prim)
| VDate (time : number)
| VBuffer (b : buffer)
| VInt (val_ : number)
| VDouble (val_ : number)
| VArray (items : list value)
| VKey (k : key)
| VObject (fields : list (string * value)).

Coercion VPrim : prim >-> value.

(** [new Date(t)]. *)
Definition Date (t : number) : value := VDate (TimeClip t).

(** ** Exceptions *)

(** What the code throws.  [Unmodelled] is no exception of the code: it
    is the outcome of an operation whose effect the embedding does not
    describe (an object given as prototype of a record, a key-like object
    that is no [Key]); nothing is said about the code there. *)
Inductive error : Type :=
| Error (message : string)
| UnsupportedFieldValue (v : value)
| TypeError (message : string)
| Unmodelled (what : string).

Inductive result (A : Type) : Type :=
| Ok (a : A)
| Throw (e : error).
Arguments Ok {A} a.
Arguments Throw {A} e.

Definition bind {A B : Type} (r : result A) (f : A -> result B) : result B :=
  match r with
  | Ok a => f a
  | Throw e => Throw e
  end.

Notation "x <- r ;; k" := (bind r (fun x => k))
  (at level 61, r at next level, right associativity).

(** [Array.prototype.map] with a callback that may throw: the elements
    are converted in order and the first exception ends the loop. *)
Definition mapM {A B : Type} (f : A -> result B) : list A -> result (list B) :=
  fix go (l : list A) : result (list B) :=
    match l with
    | [] => Ok []
    | a :: l' => b <- f a ;; bs <- go l' ;; Ok (b :: bs)
    end.

Definition no_kind : error := Error "A key should contain at least a kind.".
Definition no_ancestor_id : error :=
  Error "Invalid key. Ancestor keys require an id or name.".

(** The two errors the specification calls [MalformedKey]. *)
Definition MalformedKey (e : error) : Prop := e = no_kind \/ e = no_ancestor_id.

(** [new Key(options)] as an expression of the caller: the constructor
    has no [throw], so it always returns. *)
Definition new_Key (o : options) : result key := Ok (fst (Key o)).

(** ** Protocol keys *)

Record pathElement : Type := mkPathElement {
  pe_kind : prim;
  pe_id : prim;
  pe_name : prim
}.

Record partitionId : Type := mkPartitionId {
  pid_namespace : prim
}.

Record keyProto : Type := mkKeyProto {
  path_element : list pathElement;
  partition_id : option partitionId
}.

(** The loop of [keyFromKeyProto] over [proto.path_element]: the kind is
    pushed, then the identifier [Number(path.id) || path.name] when it is
    truthy; an element without one that is not the last throws. *)
Fixpoint keyFromKeyProto_path (elements : list pathElement) (acc : list prim)
  : result (list prim) :=
  match elements with
  | [] => Ok acc
  | p :: rest =>
      let id := or_else (PNum (ToNumber (pe_id p))) (pe_name p) in
      let acc := acc ++ [pe_kind p] in
      if truthy id then keyFromKeyProto_path rest (acc ++ [id])
      else match rest with
           | _ :: _ => Throw no_ancestor_id
           | [] => keyFromKeyProto_path rest acc
           end
  end.

Definition keyFromKeyProto (proto : keyProto) : result key :=
  let ns :=
    match partition_id proto with
    | Some pid => if truthy (pid_namespace pid) then pid_namespace pid
                  else PUndefined
    | None => PUndefined
    end in
  p <- keyFromKeyProto_path (path_element proto) [] ;;
  new_Key (mkOptions ns p).

(** The body of the loop of [keyToKeyProto] for the pair
    [keyPath[i]], [keyPath[i + 1]]; [ancestor] is [i < keyPath.length - 2]. *)
Definition keyToKeyProto_group (k val : prim) (ancestor : bool)
  : result pathElement :=
  if truthy val then
    if is_number val then Ok (mkPathElement k val PUndefined)
    else Ok (mkPathElement k PUndefined val)
  else if ancestor then Throw no_ancestor_id
  else Ok (mkPathElement k PUndefined PUndefined).

(** The loop itself, [keyPath] being what is left from index [i] on; past
    the end of the array [keyPath[i + 1]] is [undefined]. *)
Fixpoint keyToKeyProto_path (keyPath : list prim) : result (list pathElement) :=
  match keyPath with
  | [] => Ok []
  | [k] => p <- keyToKeyProto_group k PUndefined false ;; Ok [p]
  | k :: val :: rest =>
      p <- keyToKeyProto_group k val (0 <? length rest)%nat ;;
      ps <- keyToKeyProto_path rest ;;
      Ok (p :: ps)
  end.

Definition keyToKeyProto (k : key) : result keyProto :=
  let keyPath := path k in
  if negb (is_string (hd PUndefined keyPath)) then Throw no_kind
  else
    p <- keyToKeyProto_path keyPath ;;
    Ok (mkKeyProto p (if truthy (namespace k)
                      then Some (mkPartitionId (namespace k)) else None)).

(** The loop of [isKeyComplete] over the path elements. *)
Fixpoint isKeyComplete_path (elements : list pathElement) : bool :=
  match elements with
  | [] => true
  | p :: rest =>
      if negb (truthy (pe_kind p)) then false
      else if negb (truthy (pe_id p)) && negb (truthy (pe_name p)) then false
      else isKeyComplete_path rest
  end.

Definition isKeyComplete (k : key) : result bool :=
  proto <- keyToKeyProto k ;;
  Ok (isKeyComplete_path (path_element proto)).

(** ** Protocol properties and entities *)

(** What [blob_value] may hold: the [Buffer] the encoder stores, or the
    [ByteBuffer] of the protocol library, which alone has [toBuffer]. *)
Inductive blob : Type :=
| NodeBuffer (b : buffer)
| ByteBuffer (b : buffer).

Record named (A : Type) : Type := mkNamed {
  p_name : string;
  p_value : A
}.
Arguments mkNamed {A} p_name p_value.
Arguments p_name {A} n.
Arguments p_value {A} n.

(** An entity protocol object; an absent [property] array reads as
    empty, as [proto.property || []] does. *)
Record entityProtoOf (A : Type) : Type := mkEntityProto {
  e_key : maybe keyProto;
  e_property : list (named A)
}.
Arguments mkEntityProto {A} e_key e_property.
Arguments e_key {A} e.
Arguments e_property {A} e.

Scheme All for maybe.
Scheme All for named.
Scheme All for entityProtoOf.

Inductive property : Type := mkProperty {
  boolean_value : prim;
  integer_value : prim;
  double_value : prim;
  string_value : prim;
  blob_value : maybe blob;
  timestamp_microseconds_value : prim;
  key_value : maybe keyProto;
  entity_value : maybe (entityProtoOf property);
  list_value : maybe (list property);
  indexed : maybe bool
}.

Definition entityProto : Type := entityProtoOf property.

(** [var p = {}]. *)
Definition empty_property : property :=
  mkProperty PUndefined PUndefined PUndefined PUndefined Undefined
             PUndefined Undefined Undefined Undefined Undefined.

(** [acc[name] = v] on a plain object, for a name other than
    [__proto__]: an own property is updated in place, a new one is added
    last. *)
Fixpoint update (fields : list (string * value)) (k : string) (v : value)
  : list (string * value) :=
  match fields with
  | [] => [(k, v)]
  | (k', v') :: rest =>
      if String.eqb k' k then (k, v) :: rest else (k', v') :: update rest k v
  end.

(** [acc[name] = v] on the record under construction.  The name
    [__proto__] reaches the setter inherited from [Object.prototype]: it
    ignores a primitive other than [null], and makes an object, or
    [null], the prototype of the record, through which later reads and
    assignments go; records with another prototype are not described
    here. *)
Definition assign (fields : list (string * value)) (k : string) (v : value)
  : result (list (string * value)) :=
  if String.eqb k "__proto__" then
    match v with
    | VPrim PNull =>
        Throw (Unmodelled "the prototype of the record is replaced")
    | VPrim _ => Ok fields
    | _ => Throw (Unmodelled "the prototype of the record is replaced")
    end
  else Ok (update fields k v).

(** [blob.toBuffer()]. *)
Definition toBuffer (b : blob) : result value :=
  match b with
  | ByteBuffer data => Ok (VBuffer data)
  | NodeBuffer _ => Throw (TypeError "property.blob_value.toBuffer is not a function")
  end.

(** The [reduce] of [entityFromEntityProto] over the properties, from the
    accumulator [acc], for a given decoder of property values. *)
Definition reduce_properties {A : Type} (decode : A -> result value)
  : list (named A) -> list (string * value) -> result value :=
  fix reduce (properties : list (named A)) (acc : list (string * value))
    : result value :=
    match properties with
    | [] => Ok (VObject acc)
    | property :: rest =>
        v <- decode (p_value property) ;;
        acc <- assign acc (p_name property) v ;;
        reduce rest acc
    end.

Definition entityFromEntityProto_with {A : Type} (decode : A -> result value)
           (proto : entityProtoOf A) : result value :=
  reduce_properties decode (e_property proto) [].

Fixpoint propertyToValue (property : property) : result value :=
  if prim_exists (integer_value property) then
    Ok (VPrim (PNum (parseInt10 (toString (integer_value property)))))
  else if prim_exists (double_value property) then
    Ok (VPrim (double_value property))
  else if prim_exists (string_value property) then
    Ok (VPrim (string_value property))
  else
    match blob_value property with
    | Just b => toBuffer b
    | _ =>
        if prim_exists (timestamp_microseconds_value property) then
          let microSecs :=
            parseInt10 (toString (timestamp_microseconds_value property)) in
          Ok (Date (over1000 microSecs))
        else
          match key_value property with
          | Just proto => k <- keyFromKeyProto proto ;; Ok (VKey k)
          | _ =>
              match entity_value property with
              | Just proto => entityFromEntityProto_with propertyToValue proto
              | _ =>
                  if prim_exists (boolean_value property) then
                    Ok (VPrim (boolean_value property))
                  else
                    match list_value property with
                    | Just l =>
                        list <- mapM propertyToValue l ;;
                        Ok (VArray list)
                    | _ => Ok (VPrim PUndefined)
                    end
              end
          end
    end.

Definition entityFromEntityProto : entityProto -> result value :=
  entityFromEntityProto_with propertyToValue.

(** [p.field = x], one setter for each field of a property. *)
Definition set_boolean_value (p : property) (x : prim) : property :=
  mkProperty x (integer_value p) (double_value p) (string_value p)
      (blob_value p) (timestamp_microseconds_value p) (key_value p)
      (entity_value p) (list_value p) (indexed p).

Definition set_integer_value (p : property) (x : prim) : property :=
  mkProperty (boolean_value p) x (double_value p) (string_value p)
      (blob_value p) (timestamp_microseconds_value p) (key_value p)
      (entity_value p) (list_value p) (indexed p).

Definition set_double_value (p : property) (x : prim) : property :=
  mkProperty (boolean_value p) (integer_value p) x (string_value p)
      (blob_value p) (timestamp_microseconds_value p) (key_value p)
      (entity_value p) (list_value p) (indexed p).

Definition set_string_value (p : property) (x : prim) : property :=
  mkProperty (boolean_value p) (integer_value p) (double_value p) x
      (blob_value p) (timestamp_microseconds_value p) (key_value p)
      (entity_value p) (list_value p) (indexed p).

Definition set_blob_value (p : property) (x : maybe blob) : property :=
  mkProperty (boolean_value p) (integer_value p) (double_value p)
      (string_value p) x (timestamp_microseconds_value p) (key_value p)
      (entity_value p) (list_value p) (indexed p).

Definition set_timestamp_microseconds_value (p : property) (x : prim) : property :=
  mkProperty (boolean_value p) (integer_value p) (double_value p)
      (string_value p) (blob_value p) x (key_value p) (entity_value p)
      (list_value p) (indexed p).

Definition set_key_value (p : property) (x : maybe keyProto) : property :=
  mkProperty (boolean_value p) (integer_value p) (double_value p)
      (string_value p) (blob_value p) (timestamp_microseconds_value p) x
      (entity_value p) (list_value p) (indexed p).

Definition set_entity_value (p : property) (x : maybe entityProto) : property :=
  mkProperty (boolean_value p) (integer_value p) (double_value p)
      (string_value p) (blob_value p) (timestamp_microseconds_value p)
      (key_value p) x (list_value p) (indexed p).

Definition set_list_value (p : property) (x : maybe (list property)) : property :=
  mkProperty (boolean_value p) (integer_value p) (double_value p)
      (string_value p) (blob_value p) (timestamp_microseconds_value p)
      (key_value p) (entity_value p) x (indexed p).

Definition set_indexed (p : property) (x : maybe bool) : property :=
  mkProperty (boolean_value p) (integer_value p) (double_value p)
      (string_value p) (blob_value p) (timestamp_microseconds_value p)
      (key_value p) (entity_value p) (list_value p) x.

(** ** The value codec, encoding *)

Fixpoint valueToProperty (v : value) : result property :=
  let p := empty_property in
  match v with
  | VPrim (PBool _ as b) => Ok (set_boolean_value p b)
  | VInt n => Ok (set_integer_value p (PNum n))
  | VDouble n => Ok (set_double_value p (PNum n))
  | VPrim (PNum n as x) =>
      if num_eqb (rem1 n) (Fin 0 0) then Ok (set_integer_value p x)
      else Ok (set_double_value p x)
  | VDate time => Ok (set_timestamp_microseconds_value p (PNum (times1000 time)))
  | VPrim (PStr _ as s) => Ok (set_string_value p s)
  | VBuffer b => Ok (set_blob_value p (Just (NodeBuffer b)))
  | VArray items =>
      l <- mapM valueToProperty items ;;
      Ok (set_list_value p (Just l))
  | VKey k =>
      proto <- keyToKeyProto k ;;
      Ok (set_key_value p (Just proto))
  | VObject fields =>
      if (0 <? length fields)%nat then
        property <- mapM (fun kv : string * value =>
                            let (k, x) := kv in
                            px <- valueToProperty x ;;
                            Ok (mkNamed k px)) fields ;;
        Ok (set_indexed
              (set_entity_value p (Just (mkEntityProto Undefined property)))
              (Just false))
      else Throw (UnsupportedFieldValue v)
  | VPrim PUndefined | VPrim PNull => Throw (UnsupportedFieldValue v)
  end.

(** ** The entity codec, encoding *)

Definition entityToEntityProto (entity : list (string * value))
  : result entityProto :=
  property <- mapM (fun kv : string * value =>
                      let (k, x) := kv in
                      px <- valueToProperty x ;;
                      Ok (mkNamed k px)) entity ;;
  Ok (mkEntityProto Null property).

(** ** The query compiler *)

(** The outcome of [table[k]] on an object literal: the value of an own
    property, a member inherited from [Object.prototype], or
    [undefined]. *)
Inductive lookup : Type :=
| Found (code : string)
| Inherited (member : string)
| NotFound.

Definition Object_prototype : list string :=
  ["constructor"; "hasOwnProperty"; "isPrototypeOf"; "propertyIsEnumerable";
   "toLocaleString"; "toString"; "valueOf"; "__proto__";
   "__defineGetter__"; "__defineSetter__"; "__lookupGetter__";
   "__lookupSetter__"].

Fixpoint own (table : list (string * string)) (k : string) : option string :=
  match table with
  | [] => None
  | (k', v) :: rest => if String.eqb k' k then Some v else own rest k
  end.

Definition get (table : list (string * string)) (k : string) : lookup :=
  match own table k with
  | Some v => Found v
  | None => if existsb (String.eqb k) Object_prototype then Inherited k
            else NotFound
  end.

Definition OP_TO_OPERATOR : list (string * string) :=
  [("=", "EQUAL");
   (">", "GREATER_THAN");
   (">=", "GREATER_THAN_OR_EQUAL");
   ("<", "LESS_THAN");
   ("<=", "LESS_THAN_OR_EQUAL");
   ("HAS_ANCESTOR", "HAS_ANCESTOR")].

Definition SIGN_TO_ORDER : list (string * string) :=
  [("-", "DESCENDING");
   ("+", "ASCENDING")].

Record filter : Type := mkFilter {
  f_name : string;
  f_op : string;
  f_val : value
}.

Record order : Type := mkOrder {
  o_name : string;
  o_sign : string
}.

(** The query object [q]. *)
Record query : Type := mkQuery {
  q_namespace : prim;
  kinds : list string;
  filters : list filter;
  orders : list order;
  groupByVal : list string;
  selectVal : list string;
  startVal : maybe string;
  endVal : maybe string;
  limitVal : number;
  offsetVal : number
}.

(** [{ name: n }]. *)
Record reference : Type := mkReference {
  r_name : string
}.

(** [{ property: { name: v } }]. *)
Record propertyExpression : Type := mkPropertyExpression {
  x_property : reference
}.

(** [{ property: { name }, operator, value }] under [property_filter]. *)
Record propertyFilter : Type := mkPropertyFilter {
  pf_property : reference;
  pf_operator : lookup;
  pf_value : property
}.

(** [{ filter: filters, operator: 'AND' }] under [composite_filter]. *)
Record compositeFilter : Type := mkCompositeFilter {
  cf_filter : list propertyFilter;
  cf_operator : string
}.

Record propertyOrder : Type := mkPropertyOrder {
  po_property : reference;
  po_direction : lookup
}.

(** The query protocol object; [None] is a field that was not set. *)
Record queryProto : Type := mkQueryProto {
  qp_projection : list propertyExpression;
  qp_kind : list reference;
  qp_filter : option compositeFilter;
  qp_order : list propertyOrder;
  qp_group_by : list reference;
  qp_start_cursor : option buffer;
  qp_end_cursor : option buffer;
  qp_offset : option number;
  qp_limit : option number
}.

(** [o[k]] on a plain object for a name that [Object.prototype] does not
    have: the own property, or [None] for [undefined]. *)
Fixpoint member (fields : list (string * value)) (k : string) : option value :=
  match fields with
  | [] => None
  | (k', v) :: rest => if String.eqb k' k then Some v else member rest k
  end.

(** The elements of an array when they are all primitive. *)
Fixpoint primitives (items : list value) : option (list prim) :=
  match items with
  | [] => Some []
  | VPrim p :: rest =>
      match primitives rest with
      | Some ps => Some (p :: ps)
      | None => None
      end
  | _ :: _ => None
  end.

(** [keyToKeyProto(f.val)] on a filter value.  The function reads
    [key.path] and, once the loop is over, [key.namespace], of whatever it
    is given.  [null] and [undefined] have no properties; a primitive, an
    array, a [Date], a [Buffer], an [Int] or a [Double] has no [path], and
    neither has a record without that field: indexing [undefined] is a
    [TypeError].  A record with a [path] is converted like a [Key] when
    the path is an array of primitives and the namespace a primitive or
    absent; a path whose first element is no string is refused whatever
    follows.  Other paths (a string, an array-like object, an array that
    holds objects) and a namespace that is an object are not described. *)
Definition keyToKeyProto_value (v : value) : result keyProto :=
  match v with
  | VKey k => keyToKeyProto k
  | VPrim PUndefined =>
      Throw (TypeError "Cannot read property 'path' of undefined")
  | VPrim PNull => Throw (TypeError "Cannot read property 'path' of null")
  | VObject fields =>
      match member fields "path" with
      | None | Some (VPrim PUndefined) =>
          Throw (TypeError "Cannot read property '0' of undefined")
      | Some (VPrim PNull) =>
          Throw (TypeError "Cannot read property '0' of null")
      | Some (VArray []) => Throw no_kind
      | Some (VArray (VPrim first :: rest)) =>
          if negb (is_string first) then Throw no_kind
          else
            match primitives rest with
            | Some ps =>
                p <- keyToKeyProto_path (first :: ps) ;;
                match member fields "namespace" with
                | None => Ok (mkKeyProto p None)
                | Some (VPrim ns) =>
                    Ok (mkKeyProto p (if truthy ns
                                      then Some (mkPartitionId ns) else None))
                | Some _ =>
                    Throw (Unmodelled "the namespace is an object")
                end
            | None => Throw (Unmodelled "the path holds an object")
            end
      | Some (VArray (_ :: _)) => Throw no_kind
      | Some _ => Throw (Unmodelled "the path is no array")
      end
  | _ => Throw (TypeError "Cannot read property '0' of undefined")
  end.

(** The callback of [q.filters.map]. *)
Definition filterToPropertyFilter (f : filter) : result propertyFilter :=
  val <- (if String.eqb (f_name f) "__key__" then
            proto <- keyToKeyProto_value (f_val f) ;;
            Ok (set_key_value empty_property (Just proto))
          else valueToProperty (f_val f)) ;;
  Ok (mkPropertyFilter (mkReference (f_name f))
                       (get OP_TO_OPERATOR (f_op f))
                       val).

(** [if (s) ... new Buffer(s, 'base64')]. *)
Definition cursor (s : maybe string) : option buffer :=
  match s with
  | Just text => if String.eqb text "" then None else Some (Base64 text)
  | _ => None
  end.

Definition queryToQueryProto (q : query) : result queryProto :=
  let projection :=
    map (fun v => mkPropertyExpression (mkReference v)) (selectVal q) in
  let kind := map mkReference (kinds q) in
  filter <- (if (0 <? length (filters q))%nat then
               filters <- mapM filterToPropertyFilter (filters q) ;;
               Ok (Some (mkCompositeFilter filters "AND"))
             else Ok None) ;;
  let order :=
    map (fun o => mkPropertyOrder (mkReference (o_name o))
                                  (get SIGN_TO_ORDER (o_sign o)))
        (orders q) in
  let group_by := map mkReference (groupByVal q) in
  Ok (mkQueryProto projection kind filter order group_by
        (cursor (startVal q))
        (cursor (endVal q))
        (if num_gtb (offsetVal q) (Fin 0 0) then Some (offsetVal q) else None)
        (if num_gtb (limitVal q) (Fin 0 0) then Some (limitVal q) else None)).

(** ** Query results *)

(** One element of the response array, [{ entity: ... }]. *)
Record entityResult : Type := mkEntityResult {
  er_entity : entityProto
}.

(** [{ key: ..., data: ... }]. *)
Record entityObject : Type := mkEntityObject {
  eo_key : key;
  eo_data : value
}.

(** [keyFromKeyProto(result.entity.key)]: an entity without key has no
    [partition_id] to read. *)
Definition keyFromKeyProto_field (k : maybe keyProto) : result key :=
  match k with
  | Just proto => keyFromKeyProto proto
  | Undefined =>
      Throw (TypeError "Cannot read property 'partition_id' of undefined")
  | Null => Throw (TypeError "Cannot read property 'partition_id' of null")
  end.

Definition formatArray (results : list entityResult)
  : result (list entityObject) :=
  mapM (fun r =>
          k <- keyFromKeyProto_field (e_key (er_entity r)) ;;
          data <- entityFromEntityProto (er_entity r) ;;
          Ok (mkEntityObject k data))
       results.

(** ** Specification-side notions *)

(** A number has zero fractional part: it is finite and its value
    [m * 10^e] is an integer. *)
Definition integral (n : number) : bool :=
  match n with
  | Fin m e => if 0 <=? e then true else m mod 10 ^ (- e) =? 0
  | _ => false
  end.

(** A number is strictly positive. *)
Definition positive_number (n : number) : bool :=
  match n with
  | Fin m _ => 0 <? m
  | Infinity negative => negb negative
  | NaN => false
  end.

(** One segment as the constructor fills it from the popped identifier
    and kind. *)
Definition segment (ns identifier k : prim) (p : option key) : key :=
  mkKey ns
        (if is_number identifier then identifier else PUndefined)
        (if is_number identifier then PUndefined
         else if is_string identifier then identifier else PUndefined)
        k p.

(** The identifier of a segment as [path] shows it, [name || id]. *)
Definition identifier (k : key) : prim := or_else (name k) (id k).

(** The segments of a key, outermost ancestor first, each as its kind
    and identifier. *)
Fixpoint segments (k : key) : list (prim * prim) :=
  match parent k with
  | Some p => segments p
  | None => []
  end ++ [(kind k, identifier k)].

(** The kind of the outermost ancestor. *)
Fixpoint root_kind (k : key) : prim :=
  match parent k with
  | Some p => root_kind p
  | None => kind k
  end.

(** The path element [keyToKeyProto] emits for a segment. *)
Definition element (s : prim * prim) : pathElement :=
  let (k, val) := s in
  if truthy val then
    if is_number val then mkPathElement k val PUndefined
    else mkPathElement k PUndefined val
  else mkPathElement k PUndefined PUndefined.

(** A segment without an identifier: [name || id] is falsy. *)
Definition unidentified (s : prim * prim) : bool := negb (truthy (snd s)).

(** The segments of the proper ancestors of a key. *)
Definition ancestors (k : key) : list (prim * prim) :=
  match parent k with
  | Some p => segments p
  | None => []
  end.

(** A path as the concatenation of its kind/identifier pairs. *)
Definition pairs (segs : list (prim * prim)) : list prim :=
  flat_map (fun s => [fst s; snd s]) segs.

(** [a] is a proper ancestor of [c]. *)
Inductive ancestor (a : key) : key -> Prop :=
| ancestor_parent (c : key) : parent c = Some a -> ancestor a c
| ancestor_step (p c : key) : parent c = Some p -> ancestor a p -> ancestor a c.

(** The check [isKeyComplete] makes of one path element. *)
Definition complete_element (p : pathElement) : bool :=
  truthy (pe_kind p) && (truthy (pe_id p) || truthy (pe_name p)).

(** A segment whose numeric id is [0], or whose name is the empty
    string, the other of the two being unset. *)
Definition zero_or_empty (k : key) : Prop :=
  ((exists e, id k = PNum (Fin 0 e)) /\ name k = PUndefined) \/
  (name k = PStr "" /\ id k = PUndefined).

(** The identifier [keyFromKeyProto] reads from a path element. *)
Definition element_identifier (p : pathElement) : prim :=
  or_else (PNum (ToNumber (pe_id p))) (pe_name p).

(** The six filter operations of the table. *)
Definition supported_ops : list string :=
  ["="; ">"; ">="; "<"; "<="; "HAS_ANCESTOR"].

(** The operators of the property filters of a compiled query. *)
Definition operators (proto : queryProto) : list lookup :=
  match qp_filter proto with
  | Some cf => map pf_operator (cf_filter cf)
  | None => []
  end.

(** The query with the operation of every filter replaced by [op]. *)
Definition with_op (op : string) (q : query) : query :=
  mkQuery (q_namespace q) (kinds q)
          (map (fun f => mkFilter (f_name f) op (f_val f)) (filters q))
          (orders q) (groupByVal q) (selectVal q) (startVal q) (endVal q)
          (limitVal q) (offsetVal q).

(** The value fields of a protocol property, in the order in which
    [propertyToValue] tests them. *)
Inductive field : Type :=
| integer_field
| double_field
| string_field
| blob_field
| timestamp_field
| key_field
| entity_field
| boolean_field
| list_field.

Definition precedence : list field :=
  [integer_field; double_field; string_field; blob_field; timestamp_field;
   key_field; entity_field; boolean_field; list_field].

(** A field that holds a primitive is set when what it holds is neither
    [undefined] nor [null]; [false], [0], [NaN] and the empty string are
    values like any other. *)
Definition holds_value (x : prim) : bool :=
  match x with
  | PUndefined => false
  | PNull => false
  | PBool _ => true
  | PNum _ => true
  | PStr _ => true
  end.

(** A field that holds an object is set when the object is there. *)
Definition holds_object {A : Type} (x : maybe A) : bool :=
  match x with
  | Undefined => false
  | Null => false
  | Just _ => true
  end.

(** The field is neither [null] nor [undefined]. *)
Definition present (p : property) (f : field) : bool :=
  match f with
  | integer_field => holds_value (integer_value p)
  | double_field => holds_value (double_value p)
  | string_field => holds_value (string_value p)
  | blob_field => holds_object (blob_value p)
  | timestamp_field => holds_value (timestamp_microseconds_value p)
  | key_field => holds_object (key_value p)
  | entity_field => holds_object (entity_value p)
  | boolean_field => holds_value (boolean_value p)
  | list_field => holds_object (list_value p)
  end.

(** The conversion of one field, which reads no other field. *)
Definition convert (p : property) (f : field) : result value :=
  match f with
  | integer_field =>
      Ok (VPrim (PNum (parseInt10 (toString (integer_value p)))))
  | double_field => Ok (VPrim (double_value p))
  | string_field => Ok (VPrim (string_value p))
  | blob_field =>
      match blob_value p with
      | Just b => toBuffer b
      | _ => Ok (VPrim PUndefined)
      end
  | timestamp_field =>
      Ok (Date (over1000
                  (parseInt10 (toString (timestamp_microseconds_value p)))))
  | key_field =>
      match key_value p with
      | Just proto => k <- keyFromKeyProto proto ;; Ok (VKey k)
      | _ => Ok (VPrim PUndefined)
      end
  | entity_field =>
      match entity_value p with
      | Just proto => entityFromEntityProto proto
      | _ => Ok (VPrim PUndefined)
      end
  | boolean_field => Ok (VPrim (boolean_value p))
  | list_field =>
      match list_value p with
      | Just l => list <- mapM propertyToValue l ;; Ok (VArray list)
      | _ => Ok (VPrim PUndefined)
      end
  end.

(** Encoding a value and decoding the result. *)
Definition roundtrip (v : value) : result value :=
  p <- valueToProperty v ;; propertyToValue p.

(** A plain number in canonical form which, if it is an integer, is
    below [10^21] in magnitude and so prints without an exponent. *)
Definition plain_number (n : number) : Prop :=
  match n with
  | Fin m e => canonical n = true /\ (0 <= e -> Z.abs m * 10 ^ e < 10 ^ 21)
  | _ => True
  end.

(** The time value of a [Date]: [NaN] for an invalid date, or a whole
    number of milliseconds; the microseconds are required to stay
    within [2^53], where binary64 arithmetic is exact. *)
Definition valid_time (t : number) : Prop :=
  match t with
  | NaN => True
  | Infinity _ => False
  | Fin m e =>
      canonical t = true /\ 0 <= e /\ Z.abs m * 10 ^ e * 1000 <= 2 ^ 53
  end.

(** A segment with an identifier as the constructor assigns it: a truthy
    number as [id], or a truthy string as [name], and the other unset. *)
Definition identified (k : key) : Prop :=
  (is_number (id k) = true /\ truthy (id k) = true /\ name k = PUndefined) \/
  (is_string (name k) = true /\ truthy (name k) = true /\ id k = PUndefined).

(** A segment without identifier. *)
Definition anonymous (k : key) : Prop :=
  id k = PUndefined /\ name k = PUndefined.

(** A chain of identified segments under one namespace, the outermost
    kind being a string. *)
Fixpoint chain (ns : prim) (k : key) : Prop :=
  namespace k = ns /\ identified k /\
  match parent k with
  | Some p => chain ns p
  | None => is_string (kind k) = true
  end.

(** A key as the constructor builds it from a namespace that is unset
    or truthy and a path that starts with a string kind and gives every
    segment, except possibly the last, an identifier. *)
Definition constructed (k : key) : Prop :=
  (namespace k = PUndefined \/ truthy (namespace k) = true) /\
  (identified k \/ anonymous k) /\
  match parent k with
  | Some p => chain (namespace k) p
  | None => is_string (kind k) = true
  end.

(** The path handed to the constructor for a key: the path of the key,
    without the trailing [undefined] of a segment without identifier. *)
Definition given_path (segs : list (prim * prim)) : list prim :=
  flat_map (fun s => if truthy (snd s) then [fst s; snd s] else [fst s]) segs.

(** A kind/identifier pair whose identifier the constructor keeps: a
    truthy number or string. *)
Definition good (s : prim * prim) : Prop :=
  truthy (snd s) = true /\
  (is_number (snd s) = true \/ is_string (snd s) = true).

(** [P] holds of every element of the list. *)
Definition all_of {A : Type} (P : A -> Prop) : list A -> Prop :=
  fix go (l : list A) : Prop :=
    match l with
    | [] => True
    | a :: l' => P a /\ go l'
    end.

(** The native values that the decoder returns unchanged from their
    encoding: booleans, strings, plain numbers, dates, constructed keys,
    arrays of such values, and non-empty records of such values under
    distinct names other than [__proto__]. *)
Fixpoint faithful (v : value) : Prop :=
  match v with
  | VPrim (PBool _) => True
  | VPrim (PStr _) => True
  | VPrim (PNum n) => plain_number n
  | VPrim _ => False
  | VDate time => valid_time time
  | VArray items => all_of faithful items
  | VKey k => constructed k
  | VObject fields =>
      fields <> [] /\
      NoDup (map fst fields) /\
      ~ In "__proto__" (map fst fields) /\
      all_of (fun kv => faithful (snd kv)) fields
  | VBuffer _ => False
  | VInt _ => False
  | VDouble _ => False
  end.

(** The callback that encodes one field of a record. *)
Definition encode_field (kv : string * value) : result (named property) :=
  let (k, x) := kv in
  px <- valueToProperty x ;;
  Ok (mkNamed k px).

(** The identifier the getter of [path] shows for a popped identifier: a
    number, or a non-empty string; anything else reads as [undefined]. *)
Definition shown (x : prim) : prim :=
  if is_number x then x
  else if is_string x && truthy x then x
  else PUndefined.

(** A path element as [keyToKeyProto] may emit it: an id that is a
    truthy number, or a truthy name, never both. *)
Definition emitted (pe : pathElement) : Prop :=
  (is_number (pe_id pe) = true /\ truthy (pe_id pe) = true /\
   pe_name pe = PUndefined) \/
  (truthy (pe_name pe) = true /\ is_number (pe_name pe) = false /\
   pe_id pe = PUndefined) \/
  (pe_id pe = PUndefined /\ pe_name pe = PUndefined).

(** What the loop of [keyFromKeyProto] pushes for a path element. *)
Definition pushed (pe : pathElement) : list prim :=
  if truthy (element_identifier pe)
  then [pe_kind pe; element_identifier pe]
  else [pe_kind pe].

(** The namespace [keyFromKeyProto] reads from a protocol key. *)
Definition proto_namespace (proto : keyProto) : prim :=
  match partition_id proto with
  | Some pid => if truthy (pid_namespace pid) then pid_namespace pid
                else PUndefined
  | None => PUndefined
  end.

(** A path element with an identifier as the remote service sends it: a
    truthy number as id, or a truthy string as name, the other unset. *)
Definition sent (pe : pathElement) : Prop :=
  (is_number (pe_id pe) = true /\ truthy (pe_id pe) = true /\
   pe_name pe = PUndefined) \/
  (is_string (pe_name pe) = true /\ truthy (pe_name pe) = true /\
   pe_id pe = PUndefined).

(** A path element without identifier. *)
Definition blank (pe : pathElement) : Prop :=
  pe_id pe = PUndefined /\ pe_name pe = PUndefined.

(** Path elements of which every one but the last has an identifier;
    there is at least one. *)
Fixpoint sendable (elements : list pathElement) : Prop :=
  match elements with
  | [] => False
  | [pe] => sent pe \/ blank pe
  | pe :: rest => sent pe /\ sendable rest
  end.

(** A protocol key that [keyToKeyProto] can have produced from a key of
    the constructor. *)
Definition well_formed (proto : keyProto) : Prop :=
  is_string (pe_kind (hd (mkPathElement PUndefined PUndefined PUndefined)
                         (path_element proto))) = true /\
  sendable (path_element proto) /\
  match partition_id proto with
  | Some pid => truthy (pid_namespace pid) = true
  | None => True
  end.

(** The key with one segment for each path element, under [par]. *)
Fixpoint key_of (ns : prim) (par : option key) (elements : list pathElement)
  : option key :=
  match elements with
  | [] => par
  | pe :: rest =>
      key_of ns (Some (mkKey ns (pe_id pe) (pe_name pe) (pe_kind pe) par)) rest
  end.

(** The kind and identifier of a path element. *)
Definition seg_of (pe : pathElement) : prim * prim :=
  (pe_kind pe, or_else (pe_name pe) (pe_id pe)).

(** The values [valueToProperty] converts: no [undefined], [null] or
    empty record anywhere in them, and every key convertible. *)
Fixpoint encodable (v : value) : Prop :=
  match v with
  | VPrim PUndefined => False
  | VPrim PNull => False
  | VPrim _ => True
  | VDate _ => True
  | VBuffer _ => True
  | VInt _ => True
  | VDouble _ => True
  | VArray items => all_of encodable items
  | VKey k =>
      is_string (root_kind k) = true /\
      existsb unidentified (ancestors k) = false
  | VObject fields =>
      fields <> [] /\ all_of (fun kv => encodable (snd kv)) fields
  end.

(** The values [valueToProperty] rejects at top level. *)
Definition unsupported (v : value) : Prop :=
  v = VPrim PUndefined \/ v = VPrim PNull \/ v = VObject [].

(** [P] holds of some element of the list. *)
Definition any_of {A : Type} (P : A -> Prop) : list A -> Prop :=
  fix go (l : list A) : Prop :=
    match l with
    | [] => False
    | a :: l' => P a \/ go l'
    end.

(** [u] is found in [v]: it is [v], or it is found in an element of the
    array [v] or in a field of the record [v]. *)
Fixpoint found_in (u v : value) : Prop :=
  v = u \/
  match v with
  | VArray items => any_of (found_in u) items
  | VObject fields => any_of (fun kv => found_in u (snd kv)) fields
  | _ => False
  end.

(** The field [valueToProperty] sets for a value. *)
Definition field_of (v : value) : option field :=
  match v with
  | VPrim (PBool _) => Some boolean_field
  | VPrim (PNum n) => Some (if integral n then integer_field else double_field)
  | VPrim (PStr _) => Some string_field
  | VPrim _ => None
  | VInt _ => Some integer_field
  | VDouble _ => Some double_field
  | VDate _ => Some timestamp_field
  | VBuffer _ => Some blob_field
  | VArray _ => Some list_field
  | VKey _ => Some key_field
  | VObject _ => Some entity_field
  end.

(** The shape of what [propertyToValue] returns: no wrapper, dates with
    a clipped time value, records with distinct names none of which is
    [__proto__], at every depth. *)
Fixpoint decoded (v : value) : Prop :=
  match v with
  | VInt _ => False
  | VDouble _ => False
  | VDate time => time = NaN \/ integral time = true
  | VArray items => all_of decoded items
  | VObject fields =>
      NoDup (map fst fields) /\
      ~ In "__proto__" (map fst fields) /\
      all_of (fun kv => decoded (snd kv)) fields
  | _ => True
  end.

(** [fields[k]] on a plain object, for an own property. *)
Fixpoint own_property (fields : list (string * value)) (k : string)
  : option value :=
  match fields with
  | [] => None
  | (k', v) :: rest => if String.eqb k' k then Some v else own_property rest k
  end.

(** The value a named property decodes to, if it does. *)
Definition decoded_value (np : named property) : option value :=
  match propertyToValue (p_value np) with
  | Ok v => Some v
  | Throw _ => None
  end.

(** A record that the entity codec returns unchanged. *)
Definition faithful_record (entity : list (string * value)) : Prop :=
  NoDup (map fst entity) /\
  ~ In "__proto__" (map fst entity) /\
  all_of (fun kv => faithful (snd kv)) entity.

(** A stored entity as the service returns it: the protocol form of a
    key with the properties of a record. *)
Definition stored (ke : key * list (string * value)) : result entityResult :=
  proto <- keyToKeyProto (fst ke) ;;
  entity <- entityToEntityProto (snd ke) ;;
  Ok (mkEntityResult (mkEntityProto (Just proto) (e_property entity))).

(** A filter whose value the compiler can convert: a convertible key
    under [__key__], an encodable value under any other name. *)
Definition convertible (f : filter) : Prop :=
  if String.eqb (f_name f) "__key__"
  then exists k, f_val f = VKey k /\ encodable (VKey k)
  else encodable (f_val f).

(** A segment as the constructor assigns it: an id that is a number, or
    a name that is a string, or neither, never both. *)
Definition assigned (k : key) : Prop :=
  (is_number (id k) = true /\ name k = PUndefined) \/
  (is_string (name k) = true /\ id k = PUndefined) \/
  (id k = PUndefined /\ name k = PUndefined).

(** A filter on [__key__] whose value is a [Key]. *)
Definition keyed (f : filter) : Prop :=
  String.eqb (f_name f) "__key__" = true -> exists k, f_val f = VKey k.

(** A value that holds no [Buffer], at any depth. *)
Fixpoint buffer_free (v : value) : Prop :=
  match v with
  | VBuffer _ => False
  | VArray items => all_of buffer_free items
  | VObject fields => all_of (fun kv => buffer_free (snd kv)) fields
  | _ => True
  end.

(** A value none of whose records has a field named [__proto__], at any
    depth. *)
Fixpoint proto_free (v : value) : Prop :=
  match v with
  | VArray items => all_of proto_free items
  | VObject fields =>
      ~ In "__proto__" (map fst fields) /\
      all_of (fun kv => proto_free (snd kv)) fields
  | _ => True
  end.

(** * Properties *)

(** ** Numbers *)

Section Numbers.

Lemma strip_zeros_nonzero (fuel : nat) :
  forall m e, m <> 0 -> fst (strip_zeros fuel m e) <> 0.
Proof.
  induction fuel as [|fuel IH]; intros m e Hm; simpl; [exact Hm|].
  destruct (m mod 10 =? 0) eqn:Hmod; simpl; [|exact Hm].
  apply IH. apply Z.eqb_eq in Hmod. intros Hdiv.
  apply Hm. rewrite (Z.div_mod m 10) by lia. lia.
Qed.

Lemma finite_is_Fin (m e : Z) :
  exists m' e', finite m e = Fin m' e' /\ (m' = 0 <-> m = 0).
Proof.
  unfold finite. destruct (m =? 0) eqn:Hm.
  - apply Z.eqb_eq in Hm. exists 0, 0. split; [reflexivity|]. tauto.
  - apply Z.eqb_neq in Hm.
    pose proof (strip_zeros_nonzero (S (Z.to_nat (Z.log2 (Z.abs m)))) m e Hm) as Hnz.
    destruct (strip_zeros _ m e) as [m' e']. simpl in Hnz.
    exists m', e'. split; [reflexivity|]. tauto.
Qed.

Lemma finite_canonical (m e : Z) :
  canonical (Fin m e) = true -> finite m e = Fin m e.
Proof.
  unfold canonical, finite. destruct (m =? 0) eqn:Hm.
  - intros He. apply Z.eqb_eq in Hm, He. subst. reflexivity.
  - intros Hmod. simpl. apply negb_true_iff in Hmod. rewrite Hmod. reflexivity.
Qed.

Lemma num_eqb_zero (m e : Z) : num_eqb (Fin m e) (Fin 0 0) = (m =? 0).
Proof.
  unfold num_eqb. destruct (e <=? 0) eqn:He.
  - reflexivity.
  - apply Z.leb_gt in He.
    destruct (m =? 0) eqn:Hm.
    + apply Z.eqb_eq in Hm. subst. reflexivity.
    + apply Z.eqb_neq in Hm. apply Z.eqb_neq.
      assert (0 < 10 ^ (e - 0)) by (apply Z.pow_pos_nonneg; lia). nia.
Qed.

(** [n % 1 === 0] holds exactly of the numbers with zero fractional part. *)
Lemma rem1_integral (n : number) : num_eqb (rem1 n) (Fin 0 0) = integral n.
Proof.
  destruct n as [| s | m e]; try reflexivity.
  unfold rem1, integral. destruct (0 <=? e) eqn:He; [reflexivity|].
  apply Z.leb_gt in He.
  assert (Hp : 0 < 10 ^ (- e)) by (apply Z.pow_pos_nonneg; lia).
  destruct (finite_is_Fin (Z.rem m (10 ^ (- e))) e) as (m' & e' & Hf & Hz).
  rewrite Hf, num_eqb_zero.
  destruct (m mod 10 ^ (- e) =? 0) eqn:Hmod.
  - apply Z.eqb_eq in Hmod. apply Z.eqb_eq. apply Hz.
    apply Z.rem_divide; [lia|]. apply Z.mod_divide; [lia|exact Hmod].
  - apply Z.eqb_neq in Hmod. apply Z.eqb_neq. intros Hm'. apply Hmod.
    apply Z.mod_divide; [lia|]. apply Z.rem_divide; [lia|]. tauto.
Qed.

(** [n > 0] holds exactly of the strictly positive numbers. *)
Lemma num_gtb_zero (n : number) : num_gtb n (Fin 0 0) = positive_number n.
Proof.
  destruct n as [| s | m e]; try reflexivity.
  unfold num_gtb, positive_number. destruct (e <=? 0) eqn:He.
  - reflexivity.
  - apply Z.leb_gt in He.
    assert (0 < 10 ^ (e - 0)) by (apply Z.pow_pos_nonneg; lia).
    destruct (0 <? m) eqn:Hm.
    + apply Z.ltb_lt in Hm. apply Z.ltb_lt. nia.
    + apply Z.ltb_ge in Hm. apply Z.ltb_ge. nia.
Qed.

(** *** Printing and reading integers *)

Lemma digit_char_val (d : Z) :
  0 <= d <= 9 -> digit_val 10 (digit_char d) = Some d.
Proof.
  intros Hd.
  assert (H : d = 0 \/ d = 1 \/ d = 2 \/ d = 3 \/ d = 4 \/ d = 5 \/ d = 6 \/
              d = 7 \/ d = 8 \/ d = 9) by lia.
  repeat (destruct H as [-> | H]; [reflexivity|]). subst. reflexivity.
Qed.

Lemma digit_char_plain (d : Z) :
  0 <= d <= 9 ->
  is_space (digit_char d) = false /\
  forall s, strip_sign (String (digit_char d) s) = (false, String (digit_char d) s).
Proof.
  intros Hd.
  assert (H : d = 0 \/ d = 1 \/ d = 2 \/ d = 3 \/ d = 4 \/ d = 5 \/ d = 6 \/
              d = 7 \/ d = 8 \/ d = 9) by lia.
  repeat (destruct H as [-> | H]; [split; reflexivity|]). subst.
  split; reflexivity.
Qed.

Lemma string_app_assoc (a b c : string) :
  ((a ++ b) ++ c)%string = (a ++ (b ++ c))%string.
Proof. induction a as [|x a IH]; simpl; [|rewrite IH]; reflexivity. Qed.

Lemma string_length_app (a b : string) :
  String.length (a ++ b) = (String.length a + String.length b)%nat.
Proof. induction a as [|x a IH]; simpl; [|rewrite IH]; reflexivity. Qed.

Lemma digits_aux_app (fuel : nat) :
  forall n acc, digits_aux fuel n acc = (digits_aux fuel n "" ++ acc)%string.
Proof.
  induction fuel as [|fuel IH]; intros n acc; [reflexivity|].
  cbn [digits_aux]. destruct (n <? 10); [reflexivity|].
  rewrite IH, (IH _ (String _ "")), string_app_assoc. reflexivity.
Qed.

Lemma digits_aux_head (fuel : nat) :
  forall n acc, 0 <= n ->
    exists d rest, 0 <= d <= 9 /\
                   digits_aux (S fuel) n acc = String (digit_char d) rest.
Proof.
  induction fuel as [|fuel IH]; intros n acc Hn.
  - exists (n mod 10). cbn [digits_aux].
    pose proof (Z.mod_pos_bound n 10 ltac:(lia)).
    destruct (n <? 10); eexists; (split; [lia|reflexivity]).
  - cbn [digits_aux]. destruct (n <? 10) eqn:Hlt.
    + exists (n mod 10). pose proof (Z.mod_pos_bound n 10 ltac:(lia)).
      eexists; (split; [lia|reflexivity]).
    + apply (IH (n / 10)). apply Z.div_pos; lia.
Qed.

(** Reading back the digits of [n]: the accumulator is shifted by the
    number of digits, at least one, and [n] is added. *)
Lemma digits_aux_S (fuel : nat) (n : Z) (acc : string) :
  digits_aux (S fuel) n acc
  = if n <? 10 then String (digit_char (n mod 10)) acc
    else digits_aux fuel (n / 10) (String (digit_char (n mod 10)) acc).
Proof. reflexivity. Qed.

Lemma scan_digits_aux (fuel : nat) :
  forall n acc a c, 0 <= n < 10 ^ Z.of_nat (S fuel) ->
    exists k : nat,
      (0 < k)%nat /\
      scan_digits 10 (digits_aux (S fuel) n acc) a c
      = scan_digits 10 acc (a * 10 ^ Z.of_nat k + n) (c + k)%nat.
Proof.
  induction fuel as [|fuel IH]; intros n acc a c Hn;
    rewrite digits_aux_S;
    pose proof (Z.mod_pos_bound n 10 ltac:(lia)) as Hmod;
    destruct (n <? 10) eqn:Hlt.
  - apply Z.ltb_lt in Hlt. exists 1%nat. split; [lia|].
    cbn [scan_digits]. rewrite digit_char_val by lia.
    rewrite Z.mod_small by lia. change (Z.of_nat 1) with 1.
    rewrite Z.pow_1_r. f_equal; lia.
  - apply Z.ltb_ge in Hlt. simpl in Hn. lia.
  - apply Z.ltb_lt in Hlt. exists 1%nat. split; [lia|].
    cbn [scan_digits]. rewrite digit_char_val by lia.
    rewrite Z.mod_small by lia. change (Z.of_nat 1) with 1.
    rewrite Z.pow_1_r. f_equal; lia.
  - apply Z.ltb_ge in Hlt.
    assert (Hdiv : 0 <= n / 10 < 10 ^ Z.of_nat (S fuel)).
    { split; [apply Z.div_pos; lia|].
      apply Z.div_lt_upper_bound; [lia|].
      rewrite (Nat2Z.inj_succ (S fuel)), Z.pow_succ_r in Hn by lia. lia. }
    destruct (IH (n / 10) (String (digit_char (n mod 10)) acc) a c Hdiv)
      as (k & Hk & Hscan).
    exists (S k). split; [lia|]. rewrite Hscan.
    cbn [scan_digits]. rewrite digit_char_val by lia.
    rewrite Nat2Z.inj_succ, Z.pow_succ_r by lia.
    pose proof (Z.div_mod n 10 ltac:(lia)). f_equal; lia.
Qed.

Lemma digits_fuel (n : Z) :
  0 <= n -> n < 10 ^ Z.of_nat (S (Z.to_nat (Z.log2 n))).
Proof.
  intros Hn. rewrite Nat2Z.inj_succ, Z2Nat.id by apply Z.log2_nonneg.
  destruct (Z.eq_dec n 0) as [-> | Hnz]; [reflexivity|].
  pose proof (Z.log2_spec n ltac:(lia)) as [_ Hlog].
  apply Z.lt_le_trans with (1 := Hlog).
  apply Z.pow_le_mono_l. pose proof (Z.log2_nonneg n). lia.
Qed.

Lemma scan_zeros (e : nat) (a : Z) (c : nat) :
  scan_digits 10 (zeros e) a c = (a * 10 ^ Z.of_nat e, (c + e)%nat, "").
Proof.
  revert a c. induction e as [|e IH]; intros a c.
  - simpl. rewrite Z.mul_1_r, Nat.add_0_r. reflexivity.
  - change (scan_digits 10 (zeros (S e)) a c)
      with (scan_digits 10 (zeros e) (a * 10 + 0) (S c)).
    rewrite IH, Nat2Z.inj_succ, Z.pow_succ_r by lia.
    f_equal. f_equal; lia.
Qed.

Lemma digits_aux_length (fuel : nat) :
  forall n (j : nat), 0 <= n < 10 ^ Z.of_nat j -> (1 <= j)%nat ->
    (String.length (digits_aux fuel n "") <= j)%nat.
Proof.
  induction fuel as [|fuel IH]; intros n j Hn Hj; [simpl; lia|].
  cbn [digits_aux]. destruct (n <? 10) eqn:Hlt; [simpl; lia|].
  apply Z.ltb_ge in Hlt.
  rewrite digits_aux_app, string_length_app. simpl.
  destruct j as [|[|j]]; [lia|simpl in Hn; lia|].
  assert (Hdiv : 0 <= n / 10 < 10 ^ Z.of_nat (S j)).
  { split; [apply Z.div_pos; lia|].
    apply Z.div_lt_upper_bound; [lia|].
    rewrite (Nat2Z.inj_succ (S j)), Z.pow_succ_r in Hn by lia. lia. }
  specialize (IH (n / 10) (S j) Hdiv ltac:(lia)). lia.
Qed.

Lemma strip_zeros_pow (k : nat) :
  forall fuel m e, m mod 10 <> 0 -> (k <= fuel)%nat ->
    strip_zeros fuel (m * 10 ^ Z.of_nat k) e = (m, e + Z.of_nat k).
Proof.
  induction k as [|k IH]; intros fuel m e Hm Hfuel.
  - rewrite Z.mul_1_r, Z.add_0_r. destruct fuel; [reflexivity|].
    cbn [strip_zeros]. apply Z.eqb_neq in Hm. rewrite Hm. reflexivity.
  - destruct fuel as [|fuel]; [lia|]. cbn [strip_zeros].
    rewrite Nat2Z.inj_succ, Z.pow_succ_r by lia.
    replace (m * (10 * 10 ^ Z.of_nat k)) with (m * 10 ^ Z.of_nat k * 10) by lia.
    rewrite Z.mod_mul, Z.eqb_refl, Z.div_mul by lia.
    rewrite IH by (assumption || lia). f_equal. lia.
Qed.

(** An integer written as a canonical decimal is read back as is. *)
Lemma of_Z_canonical (m e : Z) :
  canonical (Fin m e) = true -> 0 <= e -> of_Z (m * 10 ^ e) = Fin m e.
Proof.
  intros Hc He. unfold of_Z, finite. unfold canonical in Hc.
  destruct (m =? 0) eqn:Hm.
  - apply Z.eqb_eq in Hm, Hc. subst. reflexivity.
  - apply Z.eqb_neq in Hm. apply negb_true_iff, Z.eqb_neq in Hc.
    assert (Hpow : 0 < 10 ^ e) by (apply Z.pow_pos_nonneg; lia).
    assert (Hnz : m * 10 ^ e <> 0) by nia.
    apply Z.eqb_neq in Hnz. rewrite Hnz.
    rewrite <- (Z2Nat.id e He) at 2.
    rewrite strip_zeros_pow; [rewrite Z2Nat.id by lia; reflexivity|exact Hc|].
    apply Z.eqb_neq in Hnz.
    assert (Hle : e <= Z.log2 (Z.abs (m * 10 ^ e))).
    { apply Z.log2_le_pow2; [lia|].
      apply Z.le_trans with (10 ^ e); [apply Z.pow_le_mono_l; lia|].
      rewrite Z.abs_mul, (Z.abs_eq (10 ^ e)) by lia. nia. }
    lia.
Qed.

Lemma parseInt10_digits (s : Z) (e : nat) (negative : bool) :
  0 <= s ->
  parseInt10 ((if negative then "-" else "") ++ digits s ++ zeros e)
  = of_Z (if negative then - (s * 10 ^ Z.of_nat e) else s * 10 ^ Z.of_nat e).
Proof.
  intros Hs. unfold digits. rewrite <- digits_aux_app.
  set (fuel := Z.to_nat (Z.log2 s)).
  destruct (digits_aux_head fuel s (zeros e) Hs) as (d & rest & Hd & Hhead).
  destruct (digit_char_plain d Hd) as [Hspace Hsign].
  destruct (scan_digits_aux fuel s (zeros e) 0 0
              (conj Hs (digits_fuel s Hs))) as (k & Hk & Hscan).
  rewrite scan_zeros in Hscan.
  replace (0 * 10 ^ Z.of_nat k + s) with s in Hscan by lia.
  unfold parseInt10. destruct negative.
  - change ("-" ++ digits_aux (S fuel) s (zeros e))%string
      with (String "-" (digits_aux (S fuel) s (zeros e))).
    change (ltrim (String "-" (digits_aux (S fuel) s (zeros e))))
      with (String "-" (digits_aux (S fuel) s (zeros e))).
    cbn [strip_sign]. rewrite Hscan.
    destruct (0 + k + e)%nat eqn:Hcount; [lia|reflexivity].
  - change ("" ++ digits_aux (S fuel) s (zeros e))%string
      with (digits_aux (S fuel) s (zeros e)).
    rewrite Hhead. cbn [ltrim]. rewrite Hspace, Hsign, <- Hhead, Hscan.
    destruct (0 + k + e)%nat eqn:Hcount; [lia|reflexivity].
Qed.

Lemma toString_pos_integer (s e : Z) :
  0 < s -> 0 <= e -> s * 10 ^ e < 10 ^ 21 ->
  toString_pos s e = (digits s ++ zeros (Z.to_nat e))%string.
Proof.
  intros Hs He Hbound. unfold toString_pos.
  set (ds := digits s). set (k := Z.of_nat (String.length ds)).
  assert (Hpow : 0 < 10 ^ e) by (apply Z.pow_pos_nonneg; lia).
  assert (He21 : e < 21).
  { destruct (Z.lt_ge_cases e 21) as [|Hge]; [assumption|].
    assert (10 ^ 21 <= 10 ^ e) by (apply Z.pow_le_mono_r; lia). nia. }
  assert (Hk : k <= 21 - e).
  { unfold k, ds, digits.
    assert (Hlen : (String.length
                      (digits_aux (S (Z.to_nat (Z.log2 s))) s "")
                    <= Z.to_nat (21 - e))%nat).
    { apply digits_aux_length; [|lia].
      rewrite Z2Nat.id by lia. split; [lia|].
      replace (10 ^ 21) with (10 ^ (21 - e) * 10 ^ e) in Hbound
        by (rewrite <- Z.pow_add_r by lia; f_equal; lia).
      nia. }
    lia. }
  replace ((k <=? k + e) && (k + e <=? 21)) with true
    by (symmetry; apply andb_true_iff; split; apply Z.leb_le; lia).
  replace (k + e - k) with e by lia. reflexivity.
Qed.

(** [parseInt(n.toString(), 10)] is [n] for an integer below [10^21] in
    magnitude, the numbers that print without an exponent. *)
Lemma parseInt10_numberToString (m e : Z) :
  canonical (Fin m e) = true -> 0 <= e -> Z.abs m * 10 ^ e < 10 ^ 21 ->
  parseInt10 (numberToString (Fin m e)) = Fin m e.
Proof.
  intros Hc He Hbound. unfold numberToString.
  rewrite (finite_canonical m e Hc).
  destruct (Z.eq_dec m 0) as [-> | Hm].
  - simpl in Hc. apply Z.eqb_eq in Hc. subst. reflexivity.
  - apply Z.eqb_neq in Hm. rewrite Hm. apply Z.eqb_neq in Hm.
    rewrite <- (of_Z_canonical m e Hc He).
    destruct (m <? 0) eqn:Hneg.
    + apply Z.ltb_lt in Hneg. rewrite Z.abs_neq in Hbound by lia.
      rewrite toString_pos_integer by lia.
      rewrite (parseInt10_digits (- m) (Z.to_nat e) true) by lia.
      rewrite Z2Nat.id by lia. f_equal. lia.
    + apply Z.ltb_ge in Hneg. rewrite Z.abs_eq in Hbound by lia.
      rewrite toString_pos_integer by lia.
      pose proof (parseInt10_digits m (Z.to_nat e) false Hneg) as Hparse.
      change (parseInt10 (digits m ++ zeros (Z.to_nat e))
              = of_Z (m * 10 ^ Z.of_nat (Z.to_nat e))) in Hparse.
      rewrite Hparse.
      rewrite Z2Nat.id by lia. reflexivity.
Qed.

End Numbers.

(** ** Numeric disambiguation in the encoder *)

(** C7: [valueToProperty] stores the payload of an [Int] wrapper in
    [integer_value] and that of a [Double] wrapper in [double_value]
    whatever the payload is, so that [new Double(7)] is a
    [double_value]; a plain number goes to [integer_value] when its
    fractional part is zero and to [double_value] otherwise, as [7] and
    [7.5] do.  No other field of the property is set. *)
Theorem valueToProperty_numeric :
  (forall n : number,
      valueToProperty (VInt n)
      = Ok {| boolean_value := PUndefined;
            integer_value := PNum n;
            double_value := PUndefined;
            string_value := PUndefined;
            blob_value := Undefined;
            timestamp_microseconds_value := PUndefined;
            key_value := Undefined;
            entity_value := Undefined;
            list_value := Undefined;
            indexed := Undefined |}) /\
  (forall n : number,
      valueToProperty (VDouble n)
      = Ok {| boolean_value := PUndefined;
            integer_value := PUndefined;
            double_value := PNum n;
            string_value := PUndefined;
            blob_value := Undefined;
            timestamp_microseconds_value := PUndefined;
            key_value := Undefined;
            entity_value := Undefined;
            list_value := Undefined;
            indexed := Undefined |}) /\
  (forall n : number,
      valueToProperty (VPrim (PNum n))
      = Ok {| boolean_value := PUndefined;
            integer_value := if integral n then PNum n else PUndefined;
            double_value := if integral n then PUndefined else PNum n;
            string_value := PUndefined;
            blob_value := Undefined;
            timestamp_microseconds_value := PUndefined;
            key_value := Undefined;
            entity_value := Undefined;
            list_value := Undefined;
            indexed := Undefined |}) /\
  valueToProperty (VDouble (Fin 7 0))
  = Ok {| boolean_value := PUndefined;
        integer_value := PUndefined;
        double_value := PNum (Fin 7 0);
        string_value := PUndefined;
        blob_value := Undefined;
        timestamp_microseconds_value := PUndefined;
        key_value := Undefined;
        entity_value := Undefined;
        list_value := Undefined;
        indexed := Undefined |} /\
  valueToProperty (VPrim (PNum (Fin 7 0)))
  = Ok {| boolean_value := PUndefined;
        integer_value := PNum (Fin 7 0);
        double_value := PUndefined;
        string_value := PUndefined;
        blob_value := Undefined;
        timestamp_microseconds_value := PUndefined;
        key_value := Undefined;
        entity_value := Undefined;
        list_value := Undefined;
        indexed := Undefined |} /\
  valueToProperty (VPrim (PNum (Fin 75 (-1))))
  = Ok {| boolean_value := PUndefined;
        integer_value := PUndefined;
        double_value := PNum (Fin 75 (-1));
        string_value := PUndefined;
        blob_value := Undefined;
        timestamp_microseconds_value := PUndefined;
        key_value := Undefined;
        entity_value := Undefined;
        list_value := Undefined;
        indexed := Undefined |}.
Proof.
  repeat split; try reflexivity.
  intros n. simpl. rewrite rem1_integral.
  destruct (integral n); reflexivity.
Qed.

(** ** The key constructor *)

Section Constructor.

Lemma Key_body (o : options) :
  Key o =
  let ns := opt_namespace o in
  let identifier := fst (pop_identifier (opt_path o)) in
  let (k, rest) := pop (snd (pop_identifier (opt_path o))) in
  match rest with
  | [] => (segment ns identifier k None, mkOptions ns [])
  | _ :: _ =>
      let r := Key (mkOptions ns rest) in
      (segment ns identifier k (Some (fst r)), snd r)
  end.
Proof.
  rewrite Key_equation_1. unfold Key_unfold_clause_1, inspect.
  cbv zeta.
  destruct (pop (snd (pop_identifier (opt_path o)))) as [k [|x rest]];
    reflexivity.
Qed.

Lemma pop_nil : pop [] = (PUndefined, []).
Proof. reflexivity. Qed.

Lemma pop_snoc (l : list prim) (x : prim) : pop (l ++ [x]) = (x, l).
Proof.
  unfold pop. rewrite rev_app_distr. simpl. rewrite rev_involutive.
  reflexivity.
Qed.

Lemma snoc_cases (l : list prim) : l = [] \/ exists l' x, l = l' ++ [x].
Proof.
  destruct l as [|a l] using rev_ind; [left; reflexivity|].
  right. exists l, a. reflexivity.
Qed.

(** What the constructor pops: nothing from an empty path, a kind and an
    identifier from a path of even length, a kind alone from one of odd
    length. *)
Lemma pops_cases (l : list prim) :
  let identifier := fst (pop_identifier l) in
  let k := fst (pop (snd (pop_identifier l))) in
  let rest := snd (pop (snd (pop_identifier l))) in
  (l = [] /\ identifier = PUndefined /\ k = PUndefined /\ rest = []) \/
  (Nat.even (length l) = true /\ l = rest ++ [k; identifier]) \/
  (Nat.even (length l) = false /\ identifier = PUndefined /\ l = rest ++ [k]).
Proof.
  cbv zeta. unfold pop_identifier.
  destruct (snoc_cases l) as [-> | (l' & x & ->)].
  - left. repeat split; reflexivity.
  - right. destruct (Nat.even (length (l' ++ [x]))) eqn:Hev.
    + left. split; [reflexivity|]. rewrite pop_snoc. simpl.
      destruct (snoc_cases l') as [-> | (l'' & y & ->)]; [discriminate|].
      rewrite pop_snoc. simpl. rewrite <- app_assoc. reflexivity.
    + right. simpl. rewrite pop_snoc. repeat split; reflexivity.
Qed.

Lemma hd_app_nonempty (l l' : list prim) :
  l <> [] -> hd PUndefined (l ++ l') = hd PUndefined l.
Proof. destruct l; [congruence|reflexivity]. Qed.

(** The constructor never looks at the kind it pops. *)
Lemma Key_kind (o : options) :
  kind (fst (Key o)) = fst (pop (snd (pop_identifier (opt_path o)))).
Proof.
  rewrite Key_body. cbv zeta.
  destruct (pop (snd (pop_identifier (opt_path o)))) as [k [|x rest]];
    reflexivity.
Qed.

(** The outermost kind of the key built is the first element of the
    path given, [undefined] when the path is empty. *)
Lemma Key_root_kind (o : options) :
  root_kind (fst (Key o)) = hd PUndefined (opt_path o).
Proof.
  remember (length (opt_path o)) as n eqn:Hn. revert o Hn.
  induction n as [n IH] using lt_wf_ind. intros o Hn.
  rewrite Key_body. cbv zeta.
  pose proof (pops_cases (opt_path o)) as Hc. cbv zeta in Hc.
  destruct (pop (snd (pop_identifier (opt_path o)))) as [k rest].
  simpl in Hc.
  destruct rest as [|x rest].
  - simpl. destruct Hc as [(-> & _ & -> & _) | [(_ & ->) | (_ & _ & ->)]];
      reflexivity.
  - simpl.
    assert (Hlen : (length (x :: rest) < n)%nat).
    { destruct Hc as [(_ & _ & _ & Hnil) | [(_ & Hl) | (_ & _ & Hl)]];
        [discriminate| |]; rewrite Hn, Hl, length_app; simpl; lia. }
    rewrite (IH _ Hlen (mkOptions (opt_namespace o) (x :: rest)) eq_refl).
    destruct Hc as [(_ & _ & _ & Hnil) | [(_ & ->) | (_ & _ & ->)]];
      [discriminate| |]; reflexivity.
Qed.

Lemma path_nonempty (k : key) : path k <> [].
Proof.
  destruct k as [ns i n kd par]. simpl. intros H.
  apply app_eq_nil in H. destruct H as [_ H]. discriminate.
Qed.

Lemma path_hd (k : key) : hd PUndefined (path k) = root_kind k.
Proof.
  induction k as [ns i n kd par IH] using key_ind. simpl.
  destruct IH as [p IHp|]; simpl; [|reflexivity].
  rewrite hd_app_nonempty by apply path_nonempty. exact IHp.
Qed.

Lemma path_even (k : key) : Nat.even (length (path k)) = true.
Proof.
  induction k as [ns i n kd par IH] using key_ind. simpl.
  destruct IH as [p IHp|]; simpl; [|reflexivity].
  rewrite length_app, Nat.even_add, IHp. reflexivity.
Qed.

End Constructor.

(** ** Keys and their protocol form *)

Section KeyProto.

Lemma segments_ancestors (k : key) :
  segments k = ancestors k ++ [(kind k, identifier k)].
Proof. destruct k; reflexivity. Qed.

Lemma path_pairs (k : key) : path k = pairs (segments k).
Proof.
  induction k as [ns i n kd par IH] using key_ind. simpl.
  unfold pairs. rewrite flat_map_app. simpl.
  destruct IH as [p IHp|]; simpl; [|reflexivity].
  rewrite IHp. reflexivity.
Qed.

Lemma keyToKeyProto_group_element (k val : prim) (ancestor : bool) :
  keyToKeyProto_group k val ancestor
  = if unidentified (k, val) && ancestor then Throw no_ancestor_id
    else Ok (element (k, val)).
Proof.
  unfold keyToKeyProto_group, unidentified, element. simpl.
  destruct (truthy val); [destruct (is_number val)|destruct ancestor];
    reflexivity.
Qed.

Lemma keyToKeyProto_path_pairs (segs : list (prim * prim)) :
  keyToKeyProto_path (pairs segs)
  = if existsb unidentified (removelast segs) then Throw no_ancestor_id
    else Ok (map element segs).
Proof.
  induction segs as [|[k val] rest IH]; [reflexivity|].
  change (pairs ((k, val) :: rest)) with (k :: val :: pairs rest).
  cbn [keyToKeyProto_path]. rewrite IH, keyToKeyProto_group_element. clear IH.
  destruct rest as [|s rest].
  - simpl. rewrite andb_false_r. reflexivity.
  - change (removelast ((k, val) :: s :: rest))
      with ((k, val) :: removelast (s :: rest)).
    cbn [existsb map].
    destruct s as [k' val'].
    change (pairs ((k', val') :: rest)) with (k' :: val' :: pairs rest).
    cbn [length Nat.ltb Nat.leb]. rewrite andb_true_r.
    destruct (unidentified (k, val)); cbn [orb bind]; [reflexivity|].
    destruct (existsb unidentified (removelast ((k', val') :: rest)));
      reflexivity.
Qed.

(** [keyToKeyProto] in terms of the segments of the key. *)
Lemma keyToKeyProto_segments (k : key) :
  keyToKeyProto k
  = if negb (is_string (root_kind k)) then Throw no_kind
    else if existsb unidentified (ancestors k) then Throw no_ancestor_id
    else Ok (mkKeyProto (map element (segments k))
                        (if truthy (namespace k)
                         then Some (mkPartitionId (namespace k)) else None)).
Proof.
  unfold keyToKeyProto. cbv zeta. rewrite path_hd.
  destruct (negb (is_string (root_kind k))); [reflexivity|].
  rewrite path_pairs, keyToKeyProto_path_pairs, segments_ancestors.
  rewrite removelast_last.
  destruct (existsb unidentified (ancestors k)); reflexivity.
Qed.

Lemma keyToKeyProto_throws_MalformedKey (k : key) (e : error) :
  keyToKeyProto k = Throw e -> MalformedKey e.
Proof.
  rewrite keyToKeyProto_segments.
  destruct (negb (is_string (root_kind k))).
  - intros [= <-]. left. reflexivity.
  - destruct (existsb unidentified (ancestors k)); [|discriminate].
    intros [= <-]. right. reflexivity.
Qed.

End KeyProto.

(** ** Construction, paths and completeness of keys *)

(** C3, counterexample: the constructor builds a key from an empty path,
    with kind [undefined], and from the path [[1, 2]], with the number
    [1] as kind; neither construction fails. *)
Lemma Key_without_kind_is_built :
  new_Key (mkOptions PUndefined [])
  = Ok (mkKey PUndefined PUndefined PUndefined PUndefined None) /\
  new_Key (mkOptions PUndefined [PNum (Fin 1 0); PNum (Fin 2 0)])
  = Ok (mkKey PUndefined (PNum (Fin 2 0)) PUndefined (PNum (Fin 1 0)) None).
Proof. split; reflexivity. Qed.

(** C3, amended: the constructor validates nothing and never fails.
    For every options record it returns a key whose kind is the element
    popped for it, whatever that is ([undefined] once the path is
    exhausted); a first path element that is not a string is reported
    later, when [keyToKeyProto] is applied to the key. *)
Theorem Key_never_fails (o : options) :
  exists k : key,
    new_Key o = Ok k /\
    kind k = fst (pop (snd (pop_identifier (opt_path o)))) /\
    (is_string (hd PUndefined (opt_path o)) = false ->
     keyToKeyProto k = Throw no_kind).
Proof.
  exists (fst (Key o)). split; [reflexivity|]. split; [apply Key_kind|].
  intros Hkind. rewrite keyToKeyProto_segments, Key_root_kind, Hkind.
  reflexivity.
Qed.

(** C9, counterexample: the path of the incomplete key built from
    [['Company']] has two elements, the kind and [undefined]; it is not
    the bare kind. *)
Lemma incomplete_path_ends_with_undefined :
  path (fst (Key (mkOptions PUndefined [PStr "Company"])))
  = [PStr "Company"; PUndefined] /\
  path (fst (Key (mkOptions PUndefined [PStr "Company"])))
  <> [PStr "Company"].
Proof. split; [reflexivity|discriminate]. Qed.

(** C9, amended: the path of a key is its parent's path (empty without
    a parent) followed by the kind and [name || id]; it is the
    concatenation of the kind/identifier pairs of its segments, so its
    length is even for every key; the path of a key with neither name
    nor id ends with the kind followed by [undefined].  The paths of the
    keys built from [['Company', 123]] and
    [['Company', 'Google', 'Branch', 1]] are these lists, and the parent
    of the latter has path [['Company', 'Google']]. *)
Theorem path_derivation :
  (forall k : key,
      path k = match parent k with
               | Some p => path p
               | None => []
               end ++ [kind k; or_else (name k) (id k)]) /\
  (forall k : key, path k = pairs (segments k)) /\
  (forall k : key, Nat.even (length (path k)) = true) /\
  (forall k : key,
      name k = PUndefined -> id k = PUndefined ->
      path k = match parent k with
               | Some p => path p
               | None => []
               end ++ [kind k; PUndefined]) /\
  path (fst (Key (mkOptions PUndefined [PStr "Company"; PNum (Fin 123 0)])))
  = [PStr "Company"; PNum (Fin 123 0)] /\
  path (fst (Key (mkOptions PUndefined
                    [PStr "Company"; PStr "Google"; PStr "Branch";
                     PNum (Fin 1 0)])))
  = [PStr "Company"; PStr "Google"; PStr "Branch"; PNum (Fin 1 0)] /\
  option_map path
    (parent (fst (Key (mkOptions PUndefined
                         [PStr "Company"; PStr "Google"; PStr "Branch";
                          PNum (Fin 1 0)]))))
  = Some [PStr "Company"; PStr "Google"].
Proof.
  split; [|split; [|split; [|split; [|repeat split]]]].
  - intros [ns i n kd [p|]]; reflexivity.
  - apply path_pairs.
  - apply path_even.
  - intros [ns i n kd [p|]]; simpl; intros -> ->; reflexivity.
Qed.

(** C8, counterexample: the one ancestor of the key built from
    [['Company', 0, 'Branch', 1]] has an id, the number [0], and the
    first path element is a string; [keyToKeyProto] throws the ancestor
    error all the same. *)
Lemma ancestor_with_id_zero_is_refused :
  is_string
    (hd PUndefined
        (path (fst (Key (mkOptions PUndefined
                           [PStr "Company"; PNum (Fin 0 0);
                            PStr "Branch"; PNum (Fin 1 0)])))))
  = true /\
  option_map id
    (parent (fst (Key (mkOptions PUndefined
                         [PStr "Company"; PNum (Fin 0 0);
                          PStr "Branch"; PNum (Fin 1 0)]))))
  = Some (PNum (Fin 0 0)) /\
  option_map parent
    (parent (fst (Key (mkOptions PUndefined
                         [PStr "Company"; PNum (Fin 0 0);
                          PStr "Branch"; PNum (Fin 1 0)]))))
  = Some None /\
  keyToKeyProto (fst (Key (mkOptions PUndefined
                             [PStr "Company"; PNum (Fin 0 0);
                              PStr "Branch"; PNum (Fin 1 0)])))
  = Throw no_ancestor_id.
Proof. repeat split. Qed.

(** C8, amended: [keyToKeyProto] throws exactly when the first path
    element (the kind of the outermost ancestor) is not a string or the
    identifier [name || id] of some proper ancestor is falsy, be it
    missing, the id [0] or the name ['']; what it throws is one of the
    two [MalformedKey] errors.  Otherwise it emits the element of each
    kind/identifier pair of the path in order, with the identifier as
    [id] when it is a number and as [name] when it is not, none for a
    falsy identifier of the last pair, and a [partition_id] holding the
    namespace exactly when the namespace is truthy. *)
Theorem keyToKeyProto_malformed (k : key) :
  hd PUndefined (path k) = root_kind k /\
  path k = pairs (ancestors k ++ [(kind k, identifier k)]) /\
  ((exists e, keyToKeyProto k = Throw e) <->
   is_string (root_kind k) = false \/
   existsb unidentified (ancestors k) = true) /\
  (forall e, keyToKeyProto k = Throw e -> MalformedKey e) /\
  (is_string (root_kind k) = true ->
   existsb unidentified (ancestors k) = false ->
   keyToKeyProto k
   = Ok (mkKeyProto (map element (segments k))
                    (if truthy (namespace k)
                     then Some (mkPartitionId (namespace k)) else None))).
Proof.
  split; [apply path_hd|].
  split; [rewrite <- segments_ancestors; apply path_pairs|].
  split; [|split; [apply keyToKeyProto_throws_MalformedKey|]];
    rewrite keyToKeyProto_segments;
    destruct (is_string (root_kind k)); cbn [negb];
    destruct (existsb unidentified (ancestors k)).
  - split; [intros _; right; reflexivity|intros _; eexists; reflexivity].
  - split; [intros [e He]; discriminate|intros [H|H]; discriminate].
  - split; [intros _; left; reflexivity|intros _; eexists; reflexivity].
  - split; [intros _; left; reflexivity|intros _; eexists; reflexivity].
  - discriminate.
  - reflexivity.
  - discriminate.
  - discriminate.
Qed.

(** C2, counterexample: on the key built from [[1, 2]], whose first path
    element is not a string, and on a key whose ancestor has no
    identifier, [isKeyComplete] throws instead of returning [false]. *)
Lemma isKeyComplete_throws :
  isKeyComplete (fst (Key (mkOptions PUndefined
                             [PNum (Fin 1 0); PNum (Fin 2 0)])))
  = Throw no_kind /\
  isKeyComplete (fst (Key (mkOptions PUndefined
                             [PStr "Company"; PBool true; PStr "Branch";
                              PNum (Fin 1 0)])))
  = Throw no_ancestor_id.
Proof. split; reflexivity. Qed.

Lemma isKeyComplete_path_forallb (l : list pathElement) :
  isKeyComplete_path l = forallb complete_element l.
Proof.
  induction l as [|p l IH]; [reflexivity|].
  simpl. unfold complete_element at 1. rewrite <- IH.
  destruct (truthy (pe_kind p)), (truthy (pe_id p)), (truthy (pe_name p));
    reflexivity.
Qed.

(** C2, amended: [isKeyComplete] has no handler around the conversion.
    When [keyToKeyProto] throws, which it does with a [MalformedKey]
    error only, [isKeyComplete] throws the same error; when it returns,
    [isKeyComplete] returns a boolean, [true] exactly when every path
    element has a truthy kind and a truthy id or name. *)
Theorem isKeyComplete_propagates (k : key) :
  match keyToKeyProto k with
  | Throw e => isKeyComplete k = Throw e /\ MalformedKey e
  | Ok proto =>
      isKeyComplete k = Ok (forallb complete_element (path_element proto))
  end.
Proof.
  unfold isKeyComplete.
  destruct (keyToKeyProto k) as [proto|e] eqn:Hk; simpl.
  - rewrite isKeyComplete_path_forallb. reflexivity.
  - split; [reflexivity|].
    apply (keyToKeyProto_throws_MalformedKey k). exact Hk.
Qed.

Section Truthiness.

Lemma zero_or_empty_unidentified (k : key) :
  zero_or_empty k -> unidentified (kind k, identifier k) = true.
Proof.
  unfold zero_or_empty, unidentified, identifier. simpl.
  intros [[[e ->] ->] | [-> ->]]; reflexivity.
Qed.

Lemma ancestor_In (a c : key) :
  ancestor a c -> In (kind a, identifier a) (ancestors c).
Proof.
  induction 1 as [c Hc | p c Hc _ IH]; unfold ancestors; rewrite Hc.
  - rewrite segments_ancestors. apply in_or_app. right. left. reflexivity.
  - rewrite segments_ancestors. apply in_or_app. left. exact IH.
Qed.

(** The loop of [keyFromKeyProto] reads an element through its kind and
    [Number(path.id) || path.name] only. *)
Lemma keyFromKeyProto_path_ext (l l' : list pathElement) :
  Forall2 (fun p q => pe_kind p = pe_kind q /\
                      element_identifier p = element_identifier q) l l' ->
  forall acc, keyFromKeyProto_path l acc = keyFromKeyProto_path l' acc.
Proof.
  induction 1 as [|p q l l' [Hk Hi] Hall IH]; intros acc; [reflexivity|].
  cbn [keyFromKeyProto_path]. fold (element_identifier p).
  fold (element_identifier q). rewrite Hk, Hi.
  destruct (truthy (element_identifier q)); [apply IH|].
  destruct Hall; [reflexivity|reflexivity].
Qed.

Lemma Forall2_same {A : Type} (R : A -> A -> Prop) (l : list A) :
  (forall a, R a a) -> Forall2 R l l.
Proof. intros HR. induction l; constructor; auto. Qed.

(** The documented examples of [isKeyComplete], and the two falsy
    identifiers on keys the constructor builds. *)
Example isKeyComplete_documented :
  isKeyComplete (fst (Key (mkOptions PUndefined [PStr "Company"; PStr "Google"])))
  = Ok true /\
  isKeyComplete (fst (Key (mkOptions PUndefined [PStr "Company"]))) = Ok false.
Proof. split; reflexivity. Qed.

Example zero_id_of_ancestor_is_no_identifier :
  keyToKeyProto (fst (Key (mkOptions PUndefined
                             [PStr "Company"; PNum (Fin 0 0);
                              PStr "Branch"; PNum (Fin 1 0)])))
  = Throw no_ancestor_id.
Proof. reflexivity. Qed.

Example empty_name_is_no_identifier :
  isKeyComplete (fst (Key (mkOptions PUndefined [PStr "Company"; PStr ""])))
  = Ok false.
Proof. reflexivity. Qed.

End Truthiness.

(** C10: identifiers are tested by truthiness.  A segment whose id is
    [0] or whose name is [''] has a falsy [name || id]: when it is the
    last segment and [keyToKeyProto] returns, the last path element
    carries neither id nor name and [isKeyComplete] returns [false];
    when it is a proper ancestor, [keyToKeyProto] throws the ancestor
    error (the missing-kind error having precedence when the first path
    element is not a string).  [keyFromKeyProto] reads a path element whose
    id is the string ['0'], or the number [0], as it reads the element
    without id: it falls back to the name, as on
    [{kind: 'Kind', id: '0', name: 'n'}]. *)
Theorem identifiers_by_truthiness :
  (forall k : key, zero_or_empty k -> truthy (or_else (name k) (id k)) = false) /\
  (forall (k : key) (proto : keyProto),
      zero_or_empty k -> keyToKeyProto k = Ok proto ->
      exists front,
        path_element proto
        = front ++ [mkPathElement (kind k) PUndefined PUndefined] /\
        isKeyComplete k = Ok false) /\
  (forall a c : key,
      zero_or_empty a -> ancestor a c ->
      keyToKeyProto c
      = Throw (if is_string (root_kind c) then no_ancestor_id else no_kind)) /\
  (forall (front back : list pathElement) (k nm zero : prim)
          (pid : option partitionId),
      zero = PStr "0" \/ zero = PNum (Fin 0 0) ->
      keyFromKeyProto
        (mkKeyProto (front ++ mkPathElement k zero nm :: back) pid)
      = keyFromKeyProto
          (mkKeyProto (front ++ mkPathElement k PUndefined nm :: back) pid)) /\
  keyFromKeyProto
    (mkKeyProto [mkPathElement (PStr "Kind") (PStr "0") (PStr "n")] None)
  = Ok (mkKey PUndefined PUndefined (PStr "n") (PStr "Kind") None).
Proof.
  split; [|split; [|split; [|split]]].
  - intros k Hk. apply zero_or_empty_unidentified in Hk.
    unfold unidentified in Hk. simpl in Hk.
    apply negb_true_iff in Hk. exact Hk.
  - intros k proto Hz Hk.
    pose proof (zero_or_empty_unidentified k Hz) as Hun.
    assert (Hel : element (kind k, identifier k)
                  = mkPathElement (kind k) PUndefined PUndefined).
    { unfold unidentified in Hun. simpl in Hun.
      apply negb_true_iff in Hun. unfold element. rewrite Hun. reflexivity. }
    unfold isKeyComplete. rewrite Hk. simpl.
    rewrite keyToKeyProto_segments in Hk.
    destruct (negb (is_string (root_kind k))); [discriminate|].
    destruct (existsb unidentified (ancestors k)); [discriminate|].
    injection Hk as <-. cbn [path_element].
    rewrite segments_ancestors, map_app. cbn [map]. rewrite Hel.
    exists (map element (ancestors k)). split; [reflexivity|].
    rewrite isKeyComplete_path_forallb, forallb_app. cbn [forallb].
    unfold complete_element at 2. cbn [pe_id pe_name truthy orb].
    rewrite !andb_false_r. reflexivity.
  - intros a c Hz Hanc.
    assert (Hex : existsb unidentified (ancestors c) = true).
    { apply existsb_exists. exists (kind a, identifier a).
      split; [apply ancestor_In; exact Hanc|].
      apply zero_or_empty_unidentified. exact Hz. }
    rewrite keyToKeyProto_segments, Hex.
    destruct (is_string (root_kind c)); reflexivity.
  - intros front back k nm zero pid Hzero. unfold keyFromKeyProto. simpl.
    rewrite (keyFromKeyProto_path_ext
               (front ++ mkPathElement k zero nm :: back)
               (front ++ mkPathElement k PUndefined nm :: back));
      [reflexivity|].
    apply Forall2_app.
    + apply Forall2_same. intros p. split; reflexivity.
    + constructor.
      * split; [reflexivity|].
        destruct Hzero as [-> | ->]; reflexivity.
      * apply Forall2_same. intros p. split; reflexivity.
  - reflexivity.
Qed.

(** ** The decoder's precedence *)

(** C6: [propertyToValue] converts the first field that is present in
    the order integer, double, string, blob, timestamp, key, entity,
    boolean, list, whatever the later fields hold; when none of them is
    present it returns [undefined] and does not throw. *)
Theorem propertyToValue_precedence (p : property) :
  propertyToValue p
  = match find (present p) precedence with
    | Some f => convert p f
    | None => Ok (VPrim PUndefined)
    end.
Proof.
  destruct p as [bv iv dv sv blob ts kv ev lv ix].
  unfold precedence, find, present, convert.
  cbn [propertyToValue integer_value double_value string_value blob_value
       timestamp_microseconds_value key_value entity_value boolean_value
       list_value].
  destruct iv as [| | ? | ? | ?]; try reflexivity;
    (destruct dv as [| | ? | ? | ?]; try reflexivity);
    (destruct sv as [| | ? | ? | ?]; try reflexivity);
    (destruct blob as [| |b]; [| |reflexivity]);
    (destruct ts as [| | ? | ? | ?]; try reflexivity);
    (destruct kv as [| |proto]; [| |reflexivity]);
    (destruct ev as [| |e]; [| |reflexivity]);
    (destruct bv as [| | ? | ? | ?]; try reflexivity);
    destruct lv as [| |l]; reflexivity.
Qed.

(** ** The query compiler *)

Section Compiler.

Lemma mapM_map_result {A A' B B' : Type}
      (f : A -> result B) (g : A' -> result B') (h : A -> A') (k : B -> B')
      (l : list A) :
  (forall a, g (h a) = b <- f a ;; Ok (k b)) ->
  mapM g (map h l) = bs <- mapM f l ;; Ok (map k bs).
Proof.
  intros Hg. induction l as [|a l IH]; [reflexivity|].
  cbn [map mapM]. rewrite Hg, IH.
  destruct (f a) as [b|e]; [|reflexivity]. cbn [bind].
  destruct (mapM f l) as [bs|e]; reflexivity.
Qed.

Lemma mapM_Ok_map {A B C : Type} (f : A -> result B) (g : A -> C) (k : B -> C)
      (l : list A) (bs : list B) :
  (forall a b, f a = Ok b -> k b = g a) ->
  mapM f l = Ok bs -> map k bs = map g l.
Proof.
  intros Hk. revert bs. induction l as [|a l IH]; intros bs.
  - intros [= <-]. reflexivity.
  - cbn [mapM]. destruct (f a) as [b|e] eqn:Hfa; [|discriminate]. cbn [bind].
    destruct (mapM f l) as [bs'|e]; [|discriminate]. cbn [bind].
    intros [= <-]. cbn [map]. rewrite (Hk a b Hfa), (IH bs' eq_refl).
    reflexivity.
Qed.

(** Replacing the operation of a filter changes the operator of its
    property filter and nothing else, in particular not whether the
    conversion throws. *)
Lemma filterToPropertyFilter_op (op : string) (f : filter) :
  filterToPropertyFilter (mkFilter (f_name f) op (f_val f))
  = pf <- filterToPropertyFilter f ;;
    Ok (mkPropertyFilter (pf_property pf) (get OP_TO_OPERATOR op) (pf_value pf)).
Proof.
  unfold filterToPropertyFilter. cbn [f_name f_op f_val].
  destruct (String.eqb (f_name f) "__key__").
  - destruct (keyToKeyProto_value (f_val f)); reflexivity.
  - destruct (valueToProperty (f_val f)); reflexivity.
Qed.

Lemma filterToPropertyFilter_operator (f : filter) (pf : propertyFilter) :
  filterToPropertyFilter f = Ok pf ->
  pf_operator pf = get OP_TO_OPERATOR (f_op f).
Proof.
  unfold filterToPropertyFilter.
  destruct (String.eqb (f_name f) "__key__").
  - destruct (keyToKeyProto_value (f_val f)); [|discriminate].
    intros [= <-]. reflexivity.
  - destruct (valueToProperty (f_val f)); [|discriminate].
    intros [= <-]. reflexivity.
Qed.

Lemma get_unsupported (op : string) :
  ~ In op supported_ops ->
  get OP_TO_OPERATOR op = NotFound \/ get OP_TO_OPERATOR op = Inherited op.
Proof.
  intros Hop. unfold get.
  assert (Hown : own OP_TO_OPERATOR op = None).
  { unfold own, OP_TO_OPERATOR.
    repeat match goal with
           | |- context [String.eqb ?s op] =>
               destruct (String.eqb_spec s op) as [Heq|_];
               [exfalso; apply Hop; rewrite <- Heq; simpl; tauto|]
           end.
    reflexivity. }
  rewrite Hown. destruct (existsb (String.eqb op) Object_prototype); tauto.
Qed.

End Compiler.

(** C4, counterexample: a query whose only filter has the operation
    ['!='] compiles; the operator of its property filter is
    [undefined]. *)
Lemma unknown_operator_compiles :
  queryToQueryProto
    (mkQuery PUndefined ["Kind"]
             [mkFilter "name" "!=" (VPrim (PStr "x"))]
             [] [] [] Null Null (Fin (-1) 0) (Fin (-1) 0))
  = Ok (mkQueryProto
          [] [mkReference "Kind"]
          (Some (mkCompositeFilter
                   [mkPropertyFilter
                      (mkReference "name") NotFound
                      (set_string_value empty_property (PStr "x"))]
                   "AND"))
          [] [] None None None None).
Proof. reflexivity. Qed.

(** C4, amended: [queryToQueryProto] does not check the operation of a
    filter.  The operator of each property filter is the table's entry
    for the operation; for an operation outside the six of the table that
    is [undefined], or the member of [Object.prototype] of that name,
    never a protocol operator.  Whether the compilation throws, and
    what, does not depend on the operations: it throws only what the
    conversion of a filter value throws. *)
Theorem queryToQueryProto_operator :
  (forall op : string,
      ~ In op supported_ops ->
      get OP_TO_OPERATOR op = NotFound \/ get OP_TO_OPERATOR op = Inherited op) /\
  (forall (q : query) (proto : queryProto),
      queryToQueryProto q = Ok proto ->
      operators proto = map (fun f => get OP_TO_OPERATOR (f_op f)) (filters q)) /\
  (forall (q : query) (op : string) (e : error),
      queryToQueryProto q = Throw e <->
      queryToQueryProto (with_op op q) = Throw e) /\
  (forall (q : query) (e : error),
      queryToQueryProto q = Throw e ->
      exists f, In f (filters q) /\
                (if String.eqb (f_name f) "__key__"
                 then keyToKeyProto_value (f_val f) = Throw e
                 else valueToProperty (f_val f) = Throw e)).
Proof.
  split; [exact get_unsupported|]. split; [|split].
  - intros q proto. unfold queryToQueryProto, operators.
    destruct (0 <? length (filters q))%nat eqn:Hlen.
    + destruct (mapM filterToPropertyFilter (filters q)) as [pfs|e] eqn:Hm;
        [|discriminate].
      cbn [bind]. intros [= <-]. cbn [qp_filter cf_filter].
      apply (mapM_Ok_map filterToPropertyFilter
               (fun f => get OP_TO_OPERATOR (f_op f)) pf_operator
               (filters q) pfs); [|exact Hm].
      intros f pf. apply filterToPropertyFilter_operator.
    + cbn [bind]. intros [= <-]. cbn [qp_filter].
      apply Nat.ltb_ge in Hlen.
      destruct (filters q); [reflexivity|simpl in Hlen; lia].
  - intros q op e. unfold queryToQueryProto, with_op. cbn [filters].
    rewrite length_map.
    rewrite (mapM_map_result filterToPropertyFilter filterToPropertyFilter
               (fun f => mkFilter (f_name f) op (f_val f))
               (fun pf => mkPropertyFilter (pf_property pf)
                                           (get OP_TO_OPERATOR op)
                                           (pf_value pf)))
      by (intros f; apply filterToPropertyFilter_op).
    destruct (0 <? length (filters q))%nat; [|split; discriminate].
    destruct (mapM filterToPropertyFilter (filters q)) as [pfs|e'];
      cbn [bind]; [split; discriminate|tauto].
  - intros q e. unfold queryToQueryProto.
    destruct (0 <? length (filters q))%nat; [|discriminate].
    destruct (mapM filterToPropertyFilter (filters q)) as [pfs|e'] eqn:Hm;
      [discriminate|].
    cbn [bind]. intros [= <-]. clear - Hm.
    induction (filters q) as [|f l IH]; [discriminate|].
    cbn [mapM] in Hm.
    destruct (filterToPropertyFilter f) as [pf|e] eqn:Hf.
    + cbn [bind] in Hm.
      destruct (mapM filterToPropertyFilter l) as [pfs|e]; [discriminate|].
      destruct (IH Hm) as (f' & Hin & Hf'). exists f'. split; [right|]; assumption.
    + cbn [bind] in Hm. injection Hm as ->. exists f. split; [left; reflexivity|].
      unfold filterToPropertyFilter in Hf.
      destruct (String.eqb (f_name f) "__key__").
      * destruct (keyToKeyProto_value (f_val f)); [discriminate|].
        cbn [bind] in Hf. injection Hf as ->. reflexivity.
      * destruct (valueToProperty (f_val f)); [discriminate|].
        cbn [bind] in Hf. injection Hf as ->. reflexivity.
Qed.

(** C5: the query with kinds [['Kind']], the one filter
    [{name: '__key__', op: 'HAS_ANCESTOR', val: someKey}], the one order
    [{name: 'created', sign: '-'}], limit [10] and an offset that is not
    strictly positive compiles, for a key that [keyToKeyProto] converts,
    to kind [[{name: 'Kind'}]], one composite [AND] filter whose one
    property filter has operator [HAS_ANCESTOR] and the converted key as
    [key_value] and no other field of its value, order [[{property:
    {name: 'created'}, direction: 'DESCENDING'}]], limit [10] and no
    offset.  For every query that
    compiles, offset and limit are set exactly when strictly positive,
    and the filter exactly when there is a filter. *)
Theorem queryToQueryProto_example
        (someKey : key) (proto : keyProto) (ns : prim)
        (select group : list string) (start finish : maybe string)
        (offset : number) :
  keyToKeyProto someKey = Ok proto ->
  positive_number offset = false ->
  queryToQueryProto
    (mkQuery ns ["Kind"]
             [mkFilter "__key__" "HAS_ANCESTOR" (VKey someKey)]
             [mkOrder "created" "-"]
             group select start finish (Fin 10 0) offset)
  = Ok (mkQueryProto
          (map (fun v => mkPropertyExpression (mkReference v)) select)
          [mkReference "Kind"]
          (Some (mkCompositeFilter
                   [mkPropertyFilter
                      (mkReference "__key__") (Found "HAS_ANCESTOR")
                      {| boolean_value := PUndefined;
                         integer_value := PUndefined;
                         double_value := PUndefined;
                         string_value := PUndefined;
                         blob_value := Undefined;
                         timestamp_microseconds_value := PUndefined;
                         key_value := Just proto;
                         entity_value := Undefined;
                         list_value := Undefined;
                         indexed := Undefined |}]
                   "AND"))
          [mkPropertyOrder (mkReference "created") (Found "DESCENDING")]
          (map mkReference group)
          (cursor start) (cursor finish)
          None (Some (Fin 10 0))) /\
  (forall (q : query) (compiled : queryProto),
      queryToQueryProto q = Ok compiled ->
      qp_offset compiled
      = (if positive_number (offsetVal q) then Some (offsetVal q) else None) /\
      qp_limit compiled
      = (if positive_number (limitVal q) then Some (limitVal q) else None) /\
      (qp_filter compiled = None <-> filters q = [])).
Proof.
  intros Hkey Hoffset. split.
  - unfold queryToQueryProto.
    cbn [filters length Nat.ltb Nat.leb mapM selectVal kinds orders
         groupByVal startVal endVal offsetVal limitVal map].
    unfold filterToPropertyFilter. cbn [f_name f_op f_val String.eqb].
    cbn. rewrite Hkey. cbn [bind]. rewrite num_gtb_zero, Hoffset.
    reflexivity.
  - intros q compiled. unfold queryToQueryProto.
    rewrite !num_gtb_zero.
    destruct (0 <? length (filters q))%nat eqn:Hlen.
    + destruct (mapM filterToPropertyFilter (filters q)); [|discriminate].
      cbn [bind]. intros [= <-]. cbn [qp_offset qp_limit qp_filter].
      repeat split; [discriminate|].
      intros Hnil. rewrite Hnil in Hlen. discriminate.
    + cbn [bind]. intros [= <-]. cbn [qp_offset qp_limit qp_filter].
      repeat split. intros _. apply Nat.ltb_ge in Hlen.
      destruct (filters q); [reflexivity|simpl in Hlen; lia].
Qed.

Lemma queryToQueryProto_example_witness :
  let someKey :=
    fst (Key (mkOptions PUndefined [PStr "Parent"; PNum (Fin 1 0)])) in
  let proto :=
    mkKeyProto [mkPathElement (PStr "Parent") (PNum (Fin 1 0)) PUndefined]
               None in
  keyToKeyProto someKey = Ok proto /\
  positive_number (Fin (-1) 0) = false /\
  queryToQueryProto
    (mkQuery PUndefined ["Kind"]
             [mkFilter "__key__" "HAS_ANCESTOR" (VKey someKey)]
             [mkOrder "created" "-"]
             [] [] Null Null (Fin 10 0) (Fin (-1) 0))
  = Ok (mkQueryProto
          [] [mkReference "Kind"]
          (Some (mkCompositeFilter
                   [mkPropertyFilter
                      (mkReference "__key__") (Found "HAS_ANCESTOR")
                      {| boolean_value := PUndefined;
                         integer_value := PUndefined;
                         double_value := PUndefined;
                         string_value := PUndefined;
                         blob_value := Undefined;
                         timestamp_microseconds_value := PUndefined;
                         key_value := Just proto;
                         entity_value := Undefined;
                         list_value := Undefined;
                         indexed := Undefined |}]
                   "AND"))
          [mkPropertyOrder (mkReference "created") (Found "DESCENDING")]
          [] None None None (Some (Fin 10 0))).
Proof.
  cbv zeta. split; [reflexivity|]. split; [reflexivity|].
  apply (queryToQueryProto_example
           (fst (Key (mkOptions PUndefined [PStr "Parent"; PNum (Fin 1 0)])))
           (mkKeyProto
              [mkPathElement (PStr "Parent") (PNum (Fin 1 0)) PUndefined] None)
           PUndefined [] [] Null Null (Fin (-1) 0));
    reflexivity.
Defined.

(** ** Round trips *)

Section RoundTrip.

Lemma num_gtb_integers (m e m' e' : Z) :
  0 <= e -> 0 <= e' ->
  num_gtb (Fin m e) (Fin m' e') = (m' * 10 ^ e' <? m * 10 ^ e).
Proof.
  intros He He'. unfold num_gtb. apply Bool.eq_iff_eq_true.
  destruct (e <=? e') eqn:Hle; rewrite !Z.ltb_lt.
  - apply Z.leb_le in Hle.
    replace (10 ^ e') with (10 ^ (e' - e) * 10 ^ e)
      by (rewrite <- Z.pow_add_r by lia; f_equal; lia).
    rewrite Z.mul_assoc.
    apply Z.mul_lt_mono_pos_r. apply Z.pow_pos_nonneg; lia.
  - apply Z.leb_gt in Hle.
    replace (10 ^ e) with (10 ^ (e - e') * 10 ^ e')
      by (rewrite <- Z.pow_add_r by lia; f_equal; lia).
    rewrite Z.mul_assoc.
    apply Z.mul_lt_mono_pos_r. apply Z.pow_pos_nonneg; lia.
Qed.

Lemma canonical_integral (m e : Z) :
  canonical (Fin m e) = true -> integral (Fin m e) = true -> 0 <= e.
Proof.
  unfold canonical, integral. destruct (0 <=? e) eqn:He; [lia|].
  apply Z.leb_gt in He. destruct (m =? 0) eqn:Hm; [lia|].
  intros Hmod Hdiv. apply negb_true_iff, Z.eqb_neq in Hmod.
  apply Z.eqb_eq in Hdiv. exfalso. apply Hmod.
  apply Z.mod_divide; [lia|]. apply Z.mod_divide in Hdiv;
    [|apply Z.pow_nonzero; lia].
  apply Z.divide_trans with (2 := Hdiv).
  exists (10 ^ (- e - 1)). rewrite Z.mul_comm, <- Z.pow_succ_r by lia.
  f_equal. lia.
Qed.

Lemma number_roundtrip (n : number) :
  plain_number n -> roundtrip (VPrim (PNum n)) = Ok (VPrim (PNum n)).
Proof.
  intros Hn. unfold roundtrip. cbn [valueToProperty].
  rewrite rem1_integral. destruct (integral n) eqn:Hint; [|reflexivity].
  cbn. destruct n as [| s | m e]; try discriminate.
  destruct Hn as [Hc Hbound].
  pose proof (canonical_integral m e Hc Hint) as He.
  rewrite (parseInt10_numberToString m e Hc He (Hbound He)). reflexivity.
Qed.

Lemma propertyToValue_timestamp (n : number) :
  propertyToValue
    (set_timestamp_microseconds_value empty_property (PNum n))
  = Ok (Date (over1000 (parseInt10 (numberToString n)))).
Proof. reflexivity. Qed.

Lemma date_roundtrip (t : number) :
  valid_time t -> roundtrip (VDate t) = Ok (VDate t).
Proof.
  intros Ht. unfold roundtrip. cbn [valueToProperty bind].
  destruct t as [| s | m e]; [reflexivity|contradiction|].
  destruct Ht as (Hc & He & Hbound).
  destruct (Z.eq_dec m 0) as [-> | Hm].
  { simpl in Hc. apply Z.eqb_eq in Hc. subst. reflexivity. }
  assert (Hc3 : canonical (Fin m (e + 3)) = true).
  { unfold canonical in *. apply Z.eqb_neq in Hm. rewrite Hm in *. exact Hc. }
  assert (Hpow : 0 < 10 ^ e) by (apply Z.pow_pos_nonneg; lia).
  assert (Htimes : times1000 (Fin m e) = Fin m (e + 3))
    by (apply finite_canonical; exact Hc3).
  assert (Hparse : parseInt10 (numberToString (Fin m (e + 3))) = Fin m (e + 3)).
  { apply parseInt10_numberToString; [exact Hc3|lia|].
    rewrite Z.pow_add_r by lia. change (10 ^ 3) with 1000.
    apply Z.le_lt_trans with (2 ^ 53); [lia|reflexivity]. }
  assert (Hover : over1000 (Fin m (e + 3)) = Fin m e).
  { unfold over1000, scale10. replace (e + 3 + -3) with e by lia.
    apply finite_canonical. exact Hc. }
  rewrite propertyToValue_timestamp, Htimes, Hparse, Hover.
  unfold Date, TimeClip. rewrite !num_gtb_integers by lia.
  replace (864 * 10 ^ 13 <? m * 10 ^ e) with false
    by (symmetry; apply Z.ltb_ge; change (864 * 10 ^ 13) with 8640000000000000;
        change (2 ^ 53) with 9007199254740992 in Hbound; lia).
  replace (m * 10 ^ e <? -864 * 10 ^ 13) with false
    by (symmetry; apply Z.ltb_ge; change (-864 * 10 ^ 13) with (-8640000000000000);
        change (2 ^ 53) with 9007199254740992 in Hbound; lia).
  cbn [orb]. unfold trunc.
  replace (0 <=? e) with true by (symmetry; apply Z.leb_le; exact He).
  reflexivity.
Qed.

(** *** Keys *)

Lemma identified_good (k : key) :
  identified k -> good (kind k, identifier k).
Proof.
  unfold identified, good, identifier, or_else. simpl.
  intros [(Hn & Ht & ->) | (Hs & Ht & ->)].
  - simpl. split; [exact Ht|left; exact Hn].
  - rewrite Ht. split; [exact Ht|right; exact Hs].
Qed.

Lemma segment_identified (k : key) :
  identified k ->
  segment (namespace k) (identifier k) (kind k) (parent k) = k.
Proof.
  destruct k as [ns i n kd par]. unfold identified, identifier, or_else, segment.
  simpl. intros [(Hn & Ht & ->) | (Hs & Ht & ->)].
  - simpl. rewrite Hn. reflexivity.
  - rewrite Ht. destruct n; try discriminate. reflexivity.
Qed.

Lemma segment_anonymous (k : key) :
  anonymous k ->
  segment (namespace k) PUndefined (kind k) (parent k) = k.
Proof.
  destruct k as [ns i n kd par]. unfold anonymous, segment. simpl.
  intros [-> ->]. reflexivity.
Qed.

Lemma chain_facts (ns : prim) (k : key) :
  chain ns k ->
  is_string (root_kind k) = true /\ Forall good (segments k).
Proof.
  induction k as [ns' i n kd par IH] using key_ind.
  cbn [chain namespace parent kind segments root_kind].
  intros (_ & Hid & Hpar). apply identified_good in Hid.
  destruct IH as [p IHp|].
  - destruct (IHp Hpar) as [Hroot Hall]. split; [exact Hroot|].
    apply Forall_app. split; [exact Hall|]. constructor; [exact Hid|constructor].
  - split; [exact Hpar|]. constructor; [exact Hid|constructor].
Qed.

Lemma good_identified (l : list (prim * prim)) :
  Forall good l -> existsb unidentified l = false.
Proof.
  induction 1 as [|s l [Ht _] _ IH]; [reflexivity|].
  simpl. unfold unidentified at 1. rewrite Ht, IH. reflexivity.
Qed.

Lemma good_given_path (l : list (prim * prim)) :
  Forall good l -> given_path l = pairs l.
Proof.
  induction 1 as [|s l [Ht _] _ IH]; [reflexivity|].
  unfold given_path, pairs in *. simpl. rewrite Ht, IH. reflexivity.
Qed.

Lemma element_good (s : prim * prim) :
  good s ->
  pe_kind (element s) = fst s /\ element_identifier (element s) = snd s.
Proof.
  destruct s as [k val]. unfold good, element, element_identifier. simpl.
  intros [Ht [Hn | Hs]]; rewrite Ht.
  - rewrite Hn. simpl. split; [reflexivity|].
    destruct val; try discriminate. simpl. unfold or_else. rewrite Ht.
    reflexivity.
  - destruct val; try discriminate. simpl. split; reflexivity.
Qed.

Lemma element_falsy (s : prim * prim) :
  truthy (snd s) = false ->
  pe_kind (element s) = fst s /\ element_identifier (element s) = PUndefined.
Proof.
  destruct s as [k val]. unfold element, element_identifier. simpl.
  intros ->. split; reflexivity.
Qed.

(** Reading back the elements emitted for the segments of a key gives
    the path the constructor was given. *)
Lemma keyFromKeyProto_path_elements (anc : list (prim * prim)) (s : prim * prim) :
  Forall good anc -> good s \/ truthy (snd s) = false ->
  forall acc,
    keyFromKeyProto_path (map element (anc ++ [s])) acc
    = Ok (acc ++ given_path (anc ++ [s])).
Proof.
  intros Hanc Hs. induction Hanc as [|a anc Ha _ IH]; intros acc.
  - cbn [app map keyFromKeyProto_path]. fold (element_identifier (element s)).
    unfold given_path. cbn [flat_map]. rewrite app_nil_r.
    destruct Hs as [Hs | Hs].
    + destruct (element_good s Hs) as [-> ->]. destruct Hs as [-> _].
      rewrite <- app_assoc. reflexivity.
    + destruct (element_falsy s Hs) as [-> ->]. rewrite Hs. reflexivity.
  - cbn [app map keyFromKeyProto_path]. fold (element_identifier (element a)).
    destruct (element_good a Ha) as [-> ->]. destruct Ha as [Ht _].
    rewrite Ht, IH. unfold given_path. cbn [flat_map]. rewrite Ht.
    rewrite <- !app_assoc. reflexivity.
Qed.

Lemma Key_snoc (ns : prim) (l : list prim) (k x : prim) (odd : bool) :
  Nat.even (length l) = true ->
  Key (mkOptions ns (l ++ k :: if odd then [] else [x]))
  = let identifier := if odd then PUndefined else x in
    match l with
    | [] => (segment ns identifier k None, mkOptions ns [])
    | _ :: _ =>
        let r := Key (mkOptions ns l) in
        (segment ns identifier k (Some (fst r)), snd r)
    end.
Proof.
  intros Hev. rewrite Key_body. cbn [opt_path opt_namespace].
  unfold pop_identifier. rewrite length_app, Nat.even_add, Hev.
  destruct odd; cbn [length Nat.even Bool.eqb fst snd].
  - rewrite pop_snoc. reflexivity.
  - change (l ++ [k; x]) with (l ++ [k] ++ [x]). rewrite app_assoc, pop_snoc.
    cbn [fst snd]. rewrite pop_snoc. reflexivity.
Qed.

Lemma Key_chain (ns : prim) (k : key) :
  chain ns k -> Key (mkOptions ns (path k)) = (k, mkOptions ns []).
Proof.
  induction k as [ns' i n kd par IH] using key_ind.
  intros Hchain. pose proof Hchain as (Hns & Hid & Hpar).
  cbn [namespace parent kind] in Hns, Hpar. subst ns'.
  rewrite <- (segment_identified _ Hid) at 2.
  cbn [path parent kind name id namespace].
  fold (identifier (mkKey ns i n kd par)).
  destruct IH as [p IHp|]; cbn [arrify].
  - rewrite (Key_snoc ns (path p) kd _ false (path_even p)). cbv zeta.
    rewrite (IHp Hpar). pose proof (path_nonempty p).
    destruct (path p); [congruence|reflexivity].
  - rewrite (Key_snoc ns [] kd _ false eq_refl). reflexivity.
Qed.

Lemma chain_given_path (ns : prim) (k : key) :
  chain ns k -> given_path (segments k) = path k.
Proof.
  intros Hchain. destruct (chain_facts ns k Hchain) as [_ Hgood].
  rewrite good_given_path by exact Hgood. symmetry. apply path_pairs.
Qed.

(** The constructor rebuilds a key from the path it was given. *)
Lemma Key_constructed (k : key) :
  constructed k ->
  Key (mkOptions (namespace k) (given_path (segments k)))
  = (k, mkOptions (namespace k) []).
Proof.
  intros (_ & Hid & Hpar). destruct Hid as [Hid | Hanon].
  - assert (Hchain : chain (namespace k) k).
    { destruct k as [ns i n kd par]. cbn [chain namespace parent kind] in *.
      repeat split; assumption. }
    rewrite (chain_given_path _ _ Hchain). apply Key_chain. exact Hchain.
  - rewrite segments_ancestors. unfold given_path. rewrite flat_map_app.
    fold (given_path (ancestors k)). cbn [flat_map fst snd].
    assert (Hfalsy : truthy (identifier k) = false).
    { destruct Hanon as [Hi Hn]. unfold identifier, or_else.
      rewrite Hn, Hi. reflexivity. }
    rewrite Hfalsy, app_nil_r.
    transitivity (segment (namespace k) PUndefined (kind k) (parent k),
                  mkOptions (namespace k) []);
      [|rewrite (segment_anonymous _ Hanon); reflexivity].
    unfold ancestors. destruct (parent k) as [p|] eqn:Hp.
    + rewrite (chain_given_path _ _ Hpar).
      rewrite (Key_snoc (namespace k) (path p) (kind k) PUndefined true
                 (path_even p)).
      cbv zeta. rewrite (Key_chain _ _ Hpar). pose proof (path_nonempty p).
      destruct (path p); [congruence|reflexivity].
    + exact (Key_snoc (namespace k) [] (kind k) PUndefined true eq_refl).
Qed.

Lemma key_roundtrip (k : key) :
  constructed k -> roundtrip (VKey k) = Ok (VKey k).
Proof.
  intros Hk. pose proof Hk as (Hns & Hid & Hpar).
  assert (Hroot : is_string (root_kind k) = true
                  /\ Forall good (ancestors k)).
  { unfold ancestors. destruct k as [ns i n kd [p|]]; cbn [parent root_kind] in *.
    - exact (chain_facts _ _ Hpar).
    - split; [exact Hpar|constructor]. }
  destruct Hroot as [Hroot Hanc].
  unfold roundtrip. cbn [valueToProperty].
  rewrite keyToKeyProto_segments, Hroot, (good_identified _ Hanc).
  cbn [negb bind]. cbn [propertyToValue set_key_value empty_property
    integer_value double_value string_value blob_value
    timestamp_microseconds_value key_value prim_exists].
  unfold keyFromKeyProto. cbn [path_element partition_id].
  rewrite segments_ancestors, keyFromKeyProto_path_elements; [|exact Hanc|].
  - cbn [bind app]. rewrite <- segments_ancestors.
    assert (Hnsk : match (if truthy (namespace k)
                          then Some (mkPartitionId (namespace k)) else None)
                   with
                   | Some pid => if truthy (pid_namespace pid)
                                 then pid_namespace pid else PUndefined
                   | None => PUndefined
                   end = namespace k).
    { destruct (truthy (namespace k)) eqn:Ht; cbn [pid_namespace].
      - rewrite Ht. reflexivity.
      - destruct Hns as [-> | Hns]; [reflexivity|congruence]. }
    rewrite Hnsk. unfold new_Key. rewrite (Key_constructed k Hk). reflexivity.
  - destruct Hid as [Hid | [Hi Hn]].
    + left. apply identified_good. exact Hid.
    + right. unfold identifier, or_else. cbn [snd]. rewrite Hn, Hi. reflexivity.
Qed.

(** *** Arrays and records *)

Lemma roundtrip_inv (v w : value) :
  roundtrip v = Ok w ->
  exists p, valueToProperty v = Ok p /\ propertyToValue p = Ok w.
Proof.
  unfold roundtrip. destruct (valueToProperty v) as [p|e]; [|discriminate].
  intros H. exists p. split; [reflexivity|exact H].
Qed.

Lemma mapM_roundtrip (l : list value) :
  all_of (fun v => roundtrip v = Ok v) l ->
  exists ps, mapM valueToProperty l = Ok ps /\ mapM propertyToValue ps = Ok l.
Proof.
  induction l as [|v l IH]; cbn [all_of].
  - intros _. exists []. split; reflexivity.
  - intros [Hv Hl]. destruct (roundtrip_inv v v Hv) as (p & Hp & Hq).
    destruct (IH Hl) as (ps & Hps & Hqs). exists (p :: ps).
    cbn [mapM]. rewrite Hp, Hps, Hq, Hqs. split; reflexivity.
Qed.

Lemma array_roundtrip (items : list value) :
  all_of (fun v => roundtrip v = Ok v) items ->
  roundtrip (VArray items) = Ok (VArray items).
Proof.
  intros Hall. destruct (mapM_roundtrip items Hall) as (ps & Hps & Hqs).
  unfold roundtrip. cbn [valueToProperty]. rewrite Hps. cbn [bind].
  change (propertyToValue (set_list_value empty_property (Just ps)))
    with (list <- mapM propertyToValue ps ;; Ok (VArray list)).
  rewrite Hqs. reflexivity.
Qed.

Lemma update_fresh (acc : list (string * value)) (k : string) (v : value) :
  ~ In k (map fst acc) -> update acc k v = acc ++ [(k, v)].
Proof.
  induction acc as [|[k' v'] acc IH]; [reflexivity|].
  cbn [map fst In update app]. intros Hin.
  destruct (String.eqb_spec k' k) as [-> | Hne]; [tauto|].
  rewrite IH by tauto. reflexivity.
Qed.

Lemma fields_roundtrip (fields : list (string * value)) :
  all_of (fun kv => roundtrip (snd kv) = Ok (snd kv)) fields ->
  ~ In "__proto__" (map fst fields) ->
  exists nps,
    mapM encode_field fields = Ok nps /\
    forall acc,
      NoDup (map fst acc ++ map fst fields) ->
      reduce_properties propertyToValue nps acc = Ok (VObject (acc ++ fields)).
Proof.
  induction fields as [|[k v] fields IH]; cbn [all_of snd map fst In].
  - intros _ _. exists []. split; [reflexivity|].
    intros acc _. rewrite app_nil_r. reflexivity.
  - intros [Hv Hall] Hproto.
    destruct (roundtrip_inv v v Hv) as (p & Hp & Hq).
    destruct (IH Hall ltac:(tauto)) as (nps & Hnps & Hreduce).
    exists (mkNamed k p :: nps). split.
    + cbn [mapM encode_field]. rewrite Hp, Hnps. reflexivity.
    + intros acc Hdup. cbn [reduce_properties p_value p_name].
      rewrite Hq. cbn [bind]. unfold assign.
      destruct (String.eqb_spec k "__proto__") as [-> | _]; [tauto|].
      cbn [bind].
      assert (Hfresh : ~ In k (map fst acc)).
      { intros Hin. apply NoDup_remove_2 in Hdup. apply Hdup.
        apply in_or_app. left. exact Hin. }
      rewrite (update_fresh acc k v Hfresh), Hreduce.
      * rewrite <- app_assoc. reflexivity.
      * rewrite map_app. cbn [map fst]. rewrite <- app_assoc. exact Hdup.
Qed.

Lemma object_roundtrip (fields : list (string * value)) :
  fields <> [] ->
  NoDup (map fst fields) ->
  ~ In "__proto__" (map fst fields) ->
  all_of (fun kv => roundtrip (snd kv) = Ok (snd kv)) fields ->
  roundtrip (VObject fields) = Ok (VObject fields).
Proof.
  intros Hne Hdup Hproto Hall.
  destruct (fields_roundtrip fields Hall Hproto) as (nps & Hnps & Hreduce).
  unfold roundtrip. cbn [valueToProperty].
  replace (0 <? length fields)%nat with true
    by (destruct fields; [congruence|reflexivity]).
  fold encode_field. rewrite Hnps. cbn [bind].
  change (propertyToValue
            (set_indexed
               (set_entity_value empty_property
                  (Just (mkEntityProto Undefined nps)))
               (Just false)))
    with (reduce_properties propertyToValue nps []).
  apply (Hreduce []). exact Hdup.
Qed.

Lemma all_of_impl {A : Type} (P Q : A -> Prop) (l : list A) :
  list_all A (fun a => P a -> Q a) l -> all_of P l -> all_of Q l.
Proof.
  induction 1 as [|a Ha l _ IH]; cbn [all_of]; [tauto|].
  intros [HP Hl]. split; [apply Ha; exact HP|apply IH; exact Hl].
Qed.

(** What the restrictions of [faithful] exclude: an integer of [10^21] or
    more prints with an exponent, of which [parseInt] reads the first
    digit; [parseInt] truncates the fractional payload of an [Int]; an
    empty namespace is not emitted, and comes back unset; a record that
    holds [null] is not encodable. *)
Example large_integer_is_misread :
  roundtrip (VPrim (PNum (Fin 1 21))) = Ok (VPrim (PNum (Fin 1 0))).
Proof. reflexivity. Qed.

Example fractional_Int_is_truncated :
  roundtrip (VInt (Fin 75 (-1))) = Ok (VPrim (PNum (Fin 7 0))).
Proof. reflexivity. Qed.

Example empty_namespace_is_lost :
  roundtrip (VKey (mkKey (PStr "") (PNum (Fin 1 0)) PUndefined (PStr "Kind") None))
  = Ok (VKey (mkKey PUndefined (PNum (Fin 1 0)) PUndefined (PStr "Kind") None)).
Proof. reflexivity. Qed.

Example null_field_is_rejected :
  roundtrip (VObject [("a", VPrim PNull)])
  = Throw (UnsupportedFieldValue (VPrim PNull)).
Proof. reflexivity. Qed.

(** The decoder returns every faithful value from its encoding. *)
Lemma faithful_roundtrip (v : value) : faithful v -> roundtrip v = Ok v.
Proof.
  induction v as [p | t | b | n | n | items IH | k | fields IH] using value_ind;
    cbn [faithful]; try contradiction.
  - destruct p as [| | b | n | s]; try contradiction.
    + reflexivity.
    + apply number_roundtrip.
    + reflexivity.
  - apply date_roundtrip.
  - intros Hall. apply array_roundtrip.
    exact (all_of_impl _ _ _ IH Hall).
  - apply key_roundtrip.
  - intros (Hne & Hdup & Hproto & Hall).
    apply object_roundtrip; try assumption.
    apply (all_of_impl (fun kv => faithful (snd kv))
                       (fun kv => roundtrip (snd kv) = Ok (snd kv))); [|exact Hall].
    clear - IH. induction IH as [|kv Hkv l _ IHl]; constructor; [|exact IHl].
    destruct Hkv as [k _ v Hv]. exact Hv.
Qed.

End RoundTrip.

(** C1, counterexample: [new Int(7)] is encoded as [integer_value: 7] and
    decoded as the plain number [7], which is not an [Int] wrapper. *)
Lemma Int_wrapper_decodes_to_number :
  roundtrip (VInt (Fin 7 0)) = Ok (VPrim (PNum (Fin 7 0))) /\
  roundtrip (VInt (Fin 7 0)) <> Ok (VInt (Fin 7 0)).
Proof. split; [reflexivity|discriminate]. Qed.

(** C1, amended: decoding the encoding returns the value itself for
    every value built from booleans, strings, plain numbers other than
    negative zero (an integer being below [10^21] in magnitude), dates
    (invalid, or within [2^53] microseconds of the epoch), keys as the
    constructor builds them (namespace unset or truthy, first kind a
    string, identifiers truthy numbers or strings, the last one possibly
    missing), arrays of such values, and non-empty records of such
    values under distinct names other than [__proto__].  The wrappers do
    not come back: a [Double] is decoded as the plain number it holds
    and an [Int] as the plain number [parseInt] reads from its payload.
    Negative zero is no [number] of this development, and nothing is
    said of it; nor is anything said of a [Buffer]. *)
Theorem roundtrip_faithful (v : value) :
  faithful v ->
  roundtrip v = Ok v /\
  (forall n : number,
      roundtrip (VDouble n) = Ok (VPrim (PNum n))) /\
  (forall n : number,
      roundtrip (VInt n) = Ok (VPrim (PNum (parseInt10 (numberToString n))))).
Proof.
  intros Hv. split; [apply faithful_roundtrip; exact Hv|].
  split; reflexivity.
Qed.

(** Closed goals about concrete values. *)
Ltac closed :=
  solve [ reflexivity
        | discriminate
        | apply Z.leb_le; reflexivity
        | apply Z.ltb_lt; reflexivity
        | apply NoDup_nil
        | apply NoDup_cons; [simpl; intuition discriminate|closed]
        | simpl; intuition discriminate
        | split; closed
        | left; closed
        | right; closed
        | intro; closed ].

Lemma roundtrip_faithful_witness :
  let v :=
    VObject
      [("name", VPrim (PStr "Ada"));
       ("legit", VPrim (PBool true));
       ("age", VPrim (PNum (Fin 36 0)));
       ("ratio", VPrim (PNum (Fin 75 (-1))));
       ("born", VDate (Fin 14200704 5));
       ("tags", VArray [VPrim (PStr "a"); VPrim (PNum (Fin (-12) 2))]);
       ("owner",
        VKey (fst (Key (mkOptions (PStr "ns")
                          [PStr "Company"; PNum (Fin 123 0);
                           PStr "Branch"; PStr "north"; PStr "Desk"]))))] in
  faithful v /\ roundtrip v = Ok v.
Proof.
  cbv zeta.
  assert (Hv : faithful
    (VObject
      [("name", VPrim (PStr "Ada"));
       ("legit", VPrim (PBool true));
       ("age", VPrim (PNum (Fin 36 0)));
       ("ratio", VPrim (PNum (Fin 75 (-1))));
       ("born", VDate (Fin 14200704 5));
       ("tags", VArray [VPrim (PStr "a"); VPrim (PNum (Fin (-12) 2))]);
       ("owner",
        VKey (fst (Key (mkOptions (PStr "ns")
                          [PStr "Company"; PNum (Fin 123 0);
                           PStr "Branch"; PStr "north"; PStr "Desk"]))))])).
  { cbn [faithful all_of snd map fst].
    repeat match goal with |- _ /\ _ => split end; closed. }
  split; [exact Hv|]. exact (proj1 (roundtrip_faithful _ Hv)).
Defined.

(** * Further properties *)

(** ** The constructor and the options object *)

Section Consumption.

Lemma ancestor_inv (a c p : key) :
  ancestor a c -> parent c = Some p -> a = p \/ ancestor a p.
Proof.
  intros Hanc Hp. destruct Hanc as [c Hc | q c Hc Hq].
  - left. congruence.
  - right. congruence.
Qed.

Lemma Key_state (o : options) :
  snd (Key o) = mkOptions (opt_namespace o) [] /\
  namespace (fst (Key o)) = opt_namespace o /\
  (forall a, ancestor a (fst (Key o)) -> namespace a = opt_namespace o).
Proof.
  remember (length (opt_path o)) as n eqn:Hn. revert o Hn.
  induction n as [n IH] using lt_wf_ind. intros o Hn.
  rewrite Key_body. cbv zeta.
  pose proof (pops_cases (opt_path o)) as Hc. cbv zeta in Hc.
  destruct (pop (snd (pop_identifier (opt_path o)))) as [k rest].
  simpl in Hc. destruct rest as [|x rest].
  - cbn [fst snd]. split; [reflexivity|]. split; [reflexivity|].
    intros a Hanc. inversion Hanc as [c Hp | p c Hp _]; discriminate.
  - assert (Hlen : (length (x :: rest) < n)%nat).
    { destruct Hc as [(_ & _ & _ & Hnil) | [(_ & Hl) | (_ & _ & Hl)]];
        [discriminate| |]; rewrite Hn, Hl, length_app; simpl; lia. }
    destruct (IH _ Hlen (mkOptions (opt_namespace o) (x :: rest)) eq_refl)
      as (Hsnd & Hns & Hanc).
    cbn [opt_namespace] in Hsnd, Hns, Hanc. cbn [fst snd].
    split; [exact Hsnd|]. split; [reflexivity|].
    intros a Ha.
    destruct (ancestor_inv a _ _ Ha eq_refl) as [-> | Ha']; auto.
Qed.

End Consumption.

(** X1: the constructor consumes the path it is given: whatever the
    options, [options.path] is empty when it returns and the namespace
    of the options is unchanged; the key and every one of its ancestors
    carry that namespace. *)
Theorem Key_consumes_path (o : options) :
  snd (Key o) = mkOptions (opt_namespace o) [] /\
  namespace (fst (Key o)) = opt_namespace o /\
  (forall a : key, ancestor a (fst (Key o)) -> namespace a = opt_namespace o).
Proof. apply Key_state. Qed.

Section GivenPath.

Lemma pairs_snoc (segs : list (prim * prim)) (s : prim * prim) :
  pairs (segs ++ [s]) = pairs segs ++ [fst s; snd s].
Proof. unfold pairs. rewrite flat_map_app. simpl. reflexivity. Qed.

Lemma pairs_even (segs : list (prim * prim)) :
  Nat.even (length (pairs segs)) = true.
Proof.
  induction segs as [|s segs IH]; [reflexivity|].
  change (pairs (s :: segs)) with (fst s :: snd s :: pairs segs).
  cbn [length Nat.even]. exact IH.
Qed.

Lemma pairs_nil (segs : list (prim * prim)) : pairs segs = [] -> segs = [].
Proof. destruct segs; [reflexivity|discriminate]. Qed.

Lemma segment_path (ns x k : prim) (p : option key) :
  path (segment ns x k p)
  = match p with
    | Some q => path q
    | None => []
    end ++ [k; shown x].
Proof.
  unfold segment, shown. cbn [path parent kind name id].
  destruct p as [q|]; cbn [arrify]; f_equal; f_equal;
    destruct x as [| | b | n | s]; try reflexivity;
    cbn [is_number is_string andb or_else];
    unfold or_else; destruct (truthy (PStr s)); reflexivity.
Qed.

(** The path of the key built from a path of kind/identifier pairs,
    possibly followed by one more kind. *)
Lemma Key_path_pairs (ns : prim) (segs : list (prim * prim)) :
  (segs <> [] ->
   path (fst (Key (mkOptions ns (pairs segs))))
   = pairs (map (fun s => (fst s, shown (snd s))) segs)) /\
  (forall k,
      path (fst (Key (mkOptions ns (pairs segs ++ [k]))))
      = pairs (map (fun s => (fst s, shown (snd s))) segs) ++ [k; PUndefined]).
Proof.
  induction segs as [|s segs IH] using rev_ind.
  - split; [congruence|]. intros k. reflexivity.
  - destruct IH as [IHeven _].
    assert (Heven :
              path (fst (Key (mkOptions ns (pairs (segs ++ [s])))))
              = pairs (map (fun s => (fst s, shown (snd s))) (segs ++ [s]))).
    { rewrite pairs_snoc, map_app. cbn [map]. rewrite pairs_snoc.
      cbn [fst snd].
      rewrite (Key_snoc ns (pairs segs) (fst s) (snd s) false (pairs_even segs)).
      cbv zeta. destruct (pairs segs) as [|y l] eqn:Hp.
      - apply pairs_nil in Hp. subst segs. cbn [fst]. rewrite segment_path.
        reflexivity.
      - cbn [fst]. rewrite segment_path. f_equal. apply IHeven.
        intros ->. discriminate. }
    split; [intros _; exact Heven|]. intros k.
    rewrite (Key_snoc ns (pairs (segs ++ [s])) k PUndefined true
               (pairs_even (segs ++ [s]))).
    cbv zeta. destruct (pairs (segs ++ [s])) as [|y l] eqn:Hp.
    + apply pairs_nil in Hp. destruct segs; discriminate.
    + cbn [fst]. rewrite segment_path. f_equal. exact Heven.
Qed.

End GivenPath.

(** X2: the path of a key reads back the path given to the constructor.
    From a non-empty path of kind/identifier pairs the key's path is
    that path with every identifier that is neither a number nor a
    non-empty string replaced by [undefined]; from such a path followed
    by one more kind it is that, the kind and [undefined]; an empty
    path gives [[undefined, undefined]].  The kinds are kept as they
    are, whatever they are. *)
Theorem Key_path_of_given_path (ns : prim) (segs : list (prim * prim)) (k : prim) :
  path (fst (Key (mkOptions ns (pairs segs))))
  = match segs with
    | [] => [PUndefined; PUndefined]
    | _ :: _ => pairs (map (fun s => (fst s, shown (snd s))) segs)
    end /\
  path (fst (Key (mkOptions ns (pairs segs ++ [k]))))
  = pairs (map (fun s => (fst s, shown (snd s))) segs) ++ [k; PUndefined].
Proof.
  destruct (Key_path_pairs ns segs) as [Heven Hodd]. split; [|apply Hodd].
  destruct segs as [|s segs]; [reflexivity|]. apply Heven. discriminate.
Qed.

(** ** Protocol keys: what is emitted and what is read *)

Section Emitted.

Lemma element_emitted (s : prim * prim) : emitted (element s).
Proof.
  destruct s as [k val]. unfold element, emitted.
  destruct (truthy val) eqn:Ht; [destruct (is_number val) eqn:Hn|];
    cbn [pe_id pe_name]; tauto.
Qed.

Lemma element_complete (s : prim * prim) :
  complete_element (element s) = truthy (fst s) && truthy (snd s).
Proof.
  destruct s as [k val]. unfold element, complete_element. cbn [fst snd].
  destruct (truthy val) eqn:Ht; [destruct (is_number val)|];
    cbn [pe_kind pe_id pe_name truthy orb]; rewrite ?Ht, ?orb_true_r;
    reflexivity.
Qed.

Lemma segments_first (k : key) :
  exists val rest, segments k = (root_kind k, val) :: rest.
Proof.
  induction k as [ns i n kd par IH] using key_ind.
  cbn [segments root_kind parent kind]. destruct IH as [p (val & rest & Hp)|].
  - rewrite Hp. exists val, (rest ++ [(kd, identifier (mkKey ns i n kd (Some p)))]).
    reflexivity.
  - eexists. exists []. reflexivity.
Qed.

End Emitted.

(** X3: what [keyToKeyProto] returns is well formed.  It has one path
    element for each segment of the key, the first with a string kind;
    no element carries both an id and a name, an id is a truthy number
    and a name truthy; every element but the last carries one of them;
    and [partition_id] is present exactly when the namespace is
    truthy. *)
Theorem keyToKeyProto_output (k : key) (proto : keyProto) :
  keyToKeyProto k = Ok proto ->
  length (path_element proto) = length (segments k) /\
  is_string (pe_kind (hd (mkPathElement PUndefined PUndefined PUndefined)
                         (path_element proto))) = true /\
  Forall emitted (path_element proto) /\
  forallb (fun pe => truthy (pe_id pe) || truthy (pe_name pe))
          (removelast (path_element proto)) = true /\
  partition_id proto
  = (if truthy (namespace k) then Some (mkPartitionId (namespace k)) else None).
Proof.
  rewrite keyToKeyProto_segments.
  destruct (is_string (root_kind k)) eqn:Hroot; [|discriminate]. cbn [negb].
  destruct (existsb unidentified (ancestors k)) eqn:Hanc; [discriminate|].
  intros [= <-]. cbn [path_element partition_id].
  split; [apply length_map|]. split.
  { destruct (segments_first k) as (val & rest & ->). cbn [map hd].
    unfold element. destruct (truthy val); [destruct (is_number val)|];
      exact Hroot. }
  split.
  { apply Forall_forall. intros pe Hin. apply in_map_iff in Hin.
    destruct Hin as (s & <- & _). apply element_emitted. }
  split; [|reflexivity].
  rewrite segments_ancestors, map_app. cbn [map]. rewrite removelast_last.
  apply forallb_forall. intros pe Hin. apply in_map_iff in Hin.
  destruct Hin as (s & <- & Hin).
  assert (Hs : unidentified s = false).
  { destruct (unidentified s) eqn:Hu; [|reflexivity].
    assert (existsb unidentified (ancestors k) = true)
      by (apply existsb_exists; exists s; split; assumption).
    congruence. }
  unfold unidentified in Hs. apply negb_false_iff in Hs.
  destruct s as [kd val]. cbn [snd] in Hs. unfold element. rewrite Hs.
  destruct (is_number val); cbn [pe_id pe_name]; rewrite Hs;
    [reflexivity|apply orb_true_r].
Qed.

Lemma keyToKeyProto_output_witness :
  let k :=
    fst (Key (mkOptions (PStr "ns")
                [PStr "Company"; PNum (Fin 123 0); PStr "Branch"])) in
  let proto :=
    mkKeyProto
      [mkPathElement (PStr "Company") (PNum (Fin 123 0)) PUndefined;
       mkPathElement (PStr "Branch") PUndefined PUndefined]
      (Some (mkPartitionId (PStr "ns"))) in
  keyToKeyProto k = Ok proto /\
  length (path_element proto) = length (segments k).
Proof.
  cbv zeta. split; [reflexivity|].
  exact (proj1 (keyToKeyProto_output
                  (fst (Key (mkOptions (PStr "ns")
                               [PStr "Company"; PNum (Fin 123 0);
                                PStr "Branch"])))
                  _ eq_refl)).
Defined.

Section Read.

Lemma keyFromKeyProto_path_closed (elements : list pathElement) :
  forall acc,
    keyFromKeyProto_path elements acc
    = if existsb (fun pe => negb (truthy (element_identifier pe)))
                 (removelast elements)
      then Throw no_ancestor_id
      else Ok (acc ++ flat_map pushed elements).
Proof.
  induction elements as [|pe rest IH]; intros acc.
  - cbn. rewrite app_nil_r. reflexivity.
  - cbn [keyFromKeyProto_path]. fold (element_identifier pe).
    destruct rest as [|pe' rest].
    + cbn [removelast existsb flat_map]. unfold pushed.
      destruct (truthy (element_identifier pe)); cbn [keyFromKeyProto_path];
        rewrite app_nil_r, <- ?app_assoc; reflexivity.
    + change (removelast (pe :: pe' :: rest))
        with (pe :: removelast (pe' :: rest)).
      cbn [existsb flat_map]. unfold pushed at 1.
      destruct (truthy (element_identifier pe)); cbn [negb orb];
        [|reflexivity].
      rewrite IH.
      destruct (existsb _ (removelast (pe' :: rest))); [reflexivity|].
      rewrite <- !app_assoc. reflexivity.
Qed.

Lemma keyFromKeyProto_closed (proto : keyProto) :
  keyFromKeyProto proto
  = if existsb (fun pe => negb (truthy (element_identifier pe)))
               (removelast (path_element proto))
    then Throw no_ancestor_id
    else Ok (fst (Key (mkOptions (proto_namespace proto)
                                 (flat_map pushed (path_element proto))))).
Proof.
  unfold keyFromKeyProto. fold (proto_namespace proto).
  rewrite keyFromKeyProto_path_closed.
  destruct (existsb _ (removelast (path_element proto))); reflexivity.
Qed.

End Read.

(** X4: [keyFromKeyProto] throws exactly when a path element other than
    the last has no identifier, [Number(path.id) || path.name] being
    falsy, and then it throws the ancestor error; it never complains
    about a kind.  Otherwise it returns the key the constructor builds
    from the kinds and truthy identifiers in order, under the namespace
    of [partition_id] when that is truthy and [undefined] when not; an
    empty [path_element] gives a key without kind. *)
Theorem keyFromKeyProto_failure (proto : keyProto) :
  ((exists e, keyFromKeyProto proto = Throw e) <->
   existsb (fun pe => negb (truthy (element_identifier pe)))
           (removelast (path_element proto)) = true) /\
  (forall e, keyFromKeyProto proto = Throw e -> e = no_ancestor_id) /\
  (forall k,
      keyFromKeyProto proto = Ok k ->
      k = fst (Key (mkOptions (proto_namespace proto)
                              (flat_map pushed (path_element proto)))) /\
      namespace k = proto_namespace proto) /\
  (path_element proto = [] ->
   keyFromKeyProto proto
   = Ok (mkKey (proto_namespace proto) PUndefined PUndefined PUndefined None)).
Proof.
  rewrite keyFromKeyProto_closed.
  destruct (existsb _ (removelast (path_element proto))) eqn:Hex.
  - split; [split; [reflexivity|eexists; reflexivity]|].
    split; [intros e [= <-]; reflexivity|].
    split; [discriminate|]. intros Hnil. rewrite Hnil in Hex. discriminate.
  - split; [split; [intros [e He]; discriminate|discriminate]|].
    split; [discriminate|]. split.
    + intros k [= <-]. split; [reflexivity|].
      exact (proj1 (proj2 (Key_state _))).
    + intros ->. reflexivity.
Qed.

Section ProtoRoundTrip.

(** A constructed key is read back from its protocol form. *)
Lemma keyFromKeyProto_keyToKeyProto (k : key) :
  constructed k ->
  exists proto, keyToKeyProto k = Ok proto /\ keyFromKeyProto proto = Ok k.
Proof.
  intros Hk. pose proof (key_roundtrip k Hk) as Hrt.
  unfold roundtrip in Hrt. cbn [valueToProperty] in Hrt.
  destruct (keyToKeyProto k) as [proto|e]; [|discriminate].
  exists proto. split; [reflexivity|]. cbn [bind] in Hrt.
  change (propertyToValue (set_key_value empty_property (Just proto)))
    with (k' <- keyFromKeyProto proto ;; Ok (VKey k')) in Hrt.
  destruct (keyFromKeyProto proto) as [k'|e]; [|discriminate].
  cbn [bind] in Hrt. congruence.
Qed.

Lemma sent_element (pe : pathElement) :
  sent pe \/ blank pe -> element (seg_of pe) = pe.
Proof.
  destruct pe as [kd i n]. unfold sent, blank, seg_of, element, or_else.
  cbn [pe_kind pe_id pe_name].
  intros [[(Hn & Ht & ->) | (Hs & Ht & ->)] | [-> ->]].
  - cbn [truthy]. rewrite Ht, Hn. reflexivity.
  - rewrite Ht, Ht. destruct n; try discriminate. reflexivity.
  - reflexivity.
Qed.

Lemma sendable_elements (elements : list pathElement) :
  sendable elements -> map element (map seg_of elements) = elements.
Proof.
  induction elements as [|pe rest IH]; [contradiction|].
  destruct rest as [|pe' rest].
  - cbn [sendable map]. intros H. rewrite (sent_element pe H). reflexivity.
  - intros [Hs Hrest]. change (map element (map seg_of (pe :: pe' :: rest)))
      with (element (seg_of pe) :: map element (map seg_of (pe' :: rest))).
    rewrite (sent_element pe (or_introl Hs)), (IH Hrest). reflexivity.
Qed.

(** The key of well-formed path elements is a key of the constructor,
    with one segment for each element. *)
Lemma key_of_sendable (ns : prim) (elements : list pathElement) :
  forall par : option key,
    sendable elements ->
    match par with
    | Some p => chain ns p
    | None =>
        is_string (pe_kind (hd (mkPathElement PUndefined PUndefined PUndefined)
                               elements)) = true
    end ->
    exists k,
      key_of ns par elements = Some k /\
      namespace k = ns /\
      (identified k \/ anonymous k) /\
      match parent k with
      | Some p => chain ns p
      | None => is_string (kind k) = true
      end /\
      segments k
      = match par with
        | Some p => segments p
        | None => []
        end ++ map seg_of elements.
Proof.
  induction elements as [|pe rest IH]; intros par Hsend Hpar; [contradiction|].
  set (k := mkKey ns (pe_id pe) (pe_name pe) (pe_kind pe) par).
  assert (Hshape : match parent k with
                   | Some p => chain ns p
                   | None => is_string (kind k) = true
                   end)
    by (destruct par; exact Hpar).
  assert (Hseg : segments k
                 = match par with
                   | Some p => segments p
                   | None => []
                   end ++ [seg_of pe])
    by (destruct par; reflexivity).
  destruct rest as [|pe' rest].
  - exists k. cbn [key_of sendable] in *. split; [reflexivity|].
    split; [reflexivity|]. split; [exact Hsend|]. split; [exact Hshape|].
    exact Hseg.
  - destruct Hsend as [Hs Hrest].
    assert (Hchain : chain ns k).
    { cbn [chain]. split; [reflexivity|]. split; [exact Hs|exact Hshape]. }
    destruct (IH (Some k) Hrest Hchain) as (k' & Hk' & Hns & Hid & Hpk & Hsegs).
    exists k'. split; [exact Hk'|]. split; [exact Hns|].
    split; [exact Hid|]. split; [exact Hpk|].
    rewrite Hsegs, Hseg, <- app_assoc. reflexivity.
Qed.

Lemma proto_roundtrip (proto : keyProto) :
  well_formed proto ->
  exists k, keyFromKeyProto proto = Ok k /\ keyToKeyProto k = Ok proto.
Proof.
  intros (Hkind & Hsend & Hpid).
  destruct (key_of_sendable (proto_namespace proto) (path_element proto)
              None Hsend Hkind) as (k & _ & Hns & Hid & Hpar & Hsegs).
  cbn [app] in Hsegs.
  assert (Hk : constructed k).
  { split; [|split; [exact Hid|rewrite Hns; exact Hpar]].
    rewrite Hns. unfold proto_namespace.
    destruct (partition_id proto) as [pid|]; [|left; reflexivity].
    rewrite Hpid. right. exact Hpid. }
  destruct (keyFromKeyProto_keyToKeyProto k Hk) as (proto' & Hto & Hfrom).
  assert (Hsame : proto' = proto).
  { rewrite keyToKeyProto_segments in Hto.
    destruct (negb (is_string (root_kind k))); [discriminate|].
    destruct (existsb unidentified (ancestors k)); [discriminate|].
    injection Hto as <-. rewrite Hsegs, (sendable_elements _ Hsend), Hns.
    destruct proto as [els pid]. cbn [path_element partition_id] in *.
    f_equal. unfold proto_namespace. cbn [partition_id].
    destruct pid as [[ns]|]; [|reflexivity].
    cbn [pid_namespace] in *. rewrite Hpid, Hpid. reflexivity. }
  subst proto'. exists k. split; assumption.
Qed.

End ProtoRoundTrip.

(** X5: a well-formed protocol key survives decoding and encoding.  If
    the first kind is a string, every path element but the last has an
    identifier (a truthy number as id or a truthy string as name, the
    other unset), the last has one or none, and the namespace of
    [partition_id], when there is one, is truthy, then [keyFromKeyProto]
    returns a key and [keyToKeyProto] maps that key back to the protocol
    key. *)
Theorem keyToKeyProto_keyFromKeyProto (proto : keyProto) :
  well_formed proto ->
  (k <- keyFromKeyProto proto ;; keyToKeyProto k) = Ok proto.
Proof.
  intros Hwf. destruct (proto_roundtrip proto Hwf) as (k & Hfrom & Hto).
  rewrite Hfrom. exact Hto.
Qed.

Lemma keyToKeyProto_keyFromKeyProto_witness :
  let proto :=
    mkKeyProto
      [mkPathElement (PStr "Company") (PNum (Fin 123 0)) PUndefined;
       mkPathElement (PStr "Branch") PUndefined (PStr "north");
       mkPathElement (PStr "Desk") PUndefined PUndefined]
      (Some (mkPartitionId (PStr "ns"))) in
  well_formed proto /\
  (k <- keyFromKeyProto proto ;; keyToKeyProto k) = Ok proto.
Proof.
  cbv zeta.
  assert (Hwf : well_formed
    (mkKeyProto
      [mkPathElement (PStr "Company") (PNum (Fin 123 0)) PUndefined;
       mkPathElement (PStr "Branch") PUndefined (PStr "north");
       mkPathElement (PStr "Desk") PUndefined PUndefined]
      (Some (mkPartitionId (PStr "ns"))))).
  { unfold well_formed. cbn [path_element partition_id sendable hd].
    closed. }
  split; [exact Hwf|]. exact (keyToKeyProto_keyFromKeyProto _ Hwf).
Defined.

(** X6: [isKeyComplete] returns [true] exactly for the keys whose
    outermost kind is a string and of which every segment, the last
    included, has a truthy kind and a truthy [name || id]. *)
Theorem isKeyComplete_true (k : key) :
  isKeyComplete k = Ok true <->
  is_string (root_kind k) = true /\
  forallb (fun s => truthy (fst s) && truthy (snd s)) (segments k) = true.
Proof.
  unfold isKeyComplete. rewrite keyToKeyProto_segments.
  assert (Hcomplete :
            forallb complete_element (map element (segments k))
            = forallb (fun s => truthy (fst s) && truthy (snd s)) (segments k)).
  { induction (segments k) as [|s l IH]; [reflexivity|].
    cbn [map forallb]. rewrite element_complete, IH. reflexivity. }
  destruct (is_string (root_kind k)); cbn [negb];
    [|split; [discriminate|intros [H _]; discriminate]].
  destruct (existsb unidentified (ancestors k)) eqn:Hanc.
  - split; [discriminate|]. intros [_ Hall]. exfalso.
    apply existsb_exists in Hanc. destruct Hanc as (s & Hin & Hun).
    rewrite forallb_forall in Hall.
    assert (Hs : In s (segments k))
      by (rewrite segments_ancestors; apply in_or_app; left; exact Hin).
    specialize (Hall s Hs). unfold unidentified in Hun.
    apply andb_true_iff in Hall. destruct Hall as [_ Ht].
    rewrite Ht in Hun. discriminate.
  - cbn [bind path_element].
    rewrite isKeyComplete_path_forallb, Hcomplete.
    split; [intros [= ->]; split; reflexivity|intros [_ ->]; reflexivity].
Qed.

(** ** The value codec: what is encodable, what is emitted, what is read *)

Section Encodable.

Lemma list_all_In {A : Type} (P : A -> Prop) (l : list A) :
  list_all A P l -> forall a, In a l -> P a.
Proof.
  induction 1 as [|a Ha l _ IH]; intros b Hin; [contradiction|].
  destruct Hin as [<- | Hin]; [exact Ha|apply IH; exact Hin].
Qed.

Lemma all_of_In {A : Type} (P : A -> Prop) (l : list A) :
  all_of P l <-> forall a, In a l -> P a.
Proof.
  induction l as [|a l IH]; cbn [all_of In]; [tauto|].
  rewrite IH. split.
  - intros [Ha Hl] b [<- | Hb]; auto.
  - intros H. split; [apply H; left; reflexivity|].
    intros b Hb. apply H. right. exact Hb.
Qed.

Lemma mapM_Ok_iff {A B : Type} (f : A -> result B) (l : list A) :
  (exists bs, mapM f l = Ok bs) <-> all_of (fun a => exists b, f a = Ok b) l.
Proof.
  induction l as [|a l IH]; cbn [mapM all_of].
  - split; [tauto|]. intros _. eexists. reflexivity.
  - rewrite <- IH. destruct (f a) as [b|e]; cbn [bind].
    + destruct (mapM f l) as [bs|e]; cbn [bind].
      * split; [|intros _; eexists; reflexivity].
        intros _. split; eexists; reflexivity.
      * split; [intros [bs H]; discriminate|].
        intros [_ [bs H]]. discriminate.
    + split; [intros [bs H]; discriminate|].
      intros [[b H] _]. discriminate.
Qed.

Lemma mapM_Throw {A B : Type} (f : A -> result B) (l : list A) (e : error) :
  mapM f l = Throw e -> exists a, In a l /\ f a = Throw e.
Proof.
  induction l as [|a l IH]; cbn [mapM]; [discriminate|].
  destruct (f a) as [b|e'] eqn:Hfa; cbn [bind].
  - destruct (mapM f l) as [bs|e'']; cbn [bind]; [discriminate|].
    intros [= ->]. destruct (IH eq_refl) as (a' & Hin & Ha').
    exists a'. split; [right; exact Hin|exact Ha'].
  - intros [= ->]. exists a. split; [left; reflexivity|exact Hfa].
Qed.

Lemma fields_all_In (P : value -> Prop) (fields : list (string * value)) :
  list_all (string * value) (prod_all string (fun _ => unit) value P) fields ->
  forall kv, In kv fields -> P (snd kv).
Proof.
  induction 1 as [|kv Hkv l _ IH]; intros b Hin; [contradiction|].
  destruct Hin as [<- | Hin]; [|apply IH; exact Hin].
  destruct Hkv as [k _ v Hv]. exact Hv.
Qed.

Lemma encode_field_Ok (kv : string * value) :
  (exists np, encode_field kv = Ok np) <-> (exists p, valueToProperty (snd kv) = Ok p).
Proof.
  destruct kv as [k v]. cbn [encode_field snd].
  destruct (valueToProperty v) as [p|e]; cbn [bind].
  - split; intros _; eexists; reflexivity.
  - split; intros [x H]; discriminate.
Qed.

Lemma encode_field_Throw (kv : string * value) (e : error) :
  encode_field kv = Throw e -> valueToProperty (snd kv) = Throw e.
Proof.
  destruct kv as [k v]. cbn [encode_field snd].
  destruct (valueToProperty v) as [p|e']; cbn [bind]; congruence.
Qed.

End Encodable.

Lemma encodable_converts (v : value) :
  (exists p, valueToProperty v = Ok p) <-> encodable v.
Proof.
  induction v as [p | t | b | n | n | items IH | k | fields IH] using value_ind;
    cbn [encodable].
  - destruct p as [| | b | n | s]; cbn [valueToProperty].
    + split; [intros [p H]; discriminate|contradiction].
    + split; [intros [p H]; discriminate|contradiction].
    + split; [tauto|intros _; eexists; reflexivity].
    + split; [tauto|intros _].
      destruct (num_eqb (rem1 n) (Fin 0 0)); eexists; reflexivity.
    + split; [tauto|intros _; eexists; reflexivity].
  - split; [tauto|intros _; eexists; reflexivity].
  - split; [tauto|intros _; eexists; reflexivity].
  - split; [tauto|intros _; eexists; reflexivity].
  - split; [tauto|intros _; eexists; reflexivity].
  - cbn [valueToProperty].
    assert (Hall : all_of encodable items
                   <-> all_of (fun a => exists b, valueToProperty a = Ok b) items).
    { rewrite !all_of_In. split; intros H a Hin;
        apply (list_all_In _ _ IH a Hin); apply H; exact Hin. }
    rewrite Hall, <- mapM_Ok_iff.
    destruct (mapM valueToProperty items) as [ps|e]; cbn [bind].
    + split; intros _; eexists; reflexivity.
    + split; intros [x H]; discriminate.
  - cbn [valueToProperty]. rewrite keyToKeyProto_segments.
    destruct (is_string (root_kind k)); cbn [negb bind].
    + destruct (existsb unidentified (ancestors k)); cbn [bind].
      * split; [intros [p H]; discriminate|intros [_ H]; discriminate].
      * split; [tauto|intros _; eexists; reflexivity].
    + split; [intros [p H]; discriminate|intros [H _]; discriminate].
  - cbn [valueToProperty]. fold encode_field.
    assert (Hall : all_of (fun kv => encodable (snd kv)) fields
                   <-> all_of (fun kv => exists np, encode_field kv = Ok np) fields).
    { rewrite !all_of_In. split; intros H kv Hin.
      - apply encode_field_Ok. apply (fields_all_In _ _ IH kv Hin).
        apply H. exact Hin.
      - apply (fields_all_In _ _ IH kv Hin). apply encode_field_Ok.
        apply H. exact Hin. }
    rewrite Hall, <- mapM_Ok_iff.
    destruct fields as [|kv fields].
    + cbn. split; [intros [p H]; discriminate|intros [H _]; congruence].
    + change (0 <? length (kv :: fields))%nat with true. cbv iota.
      destruct (mapM encode_field (kv :: fields)) as [nps|e]; cbn [bind].
      * split; [intros _; split; [discriminate|eexists; reflexivity]|].
        intros _. eexists. reflexivity.
      * split; [intros [x H]; discriminate|intros [_ [x H]]; discriminate].
Qed.

(** X7: [valueToProperty] returns a property exactly for the values that
    hold no [undefined], no [null] and no empty record, at any depth of
    their arrays and records, and whose keys [keyToKeyProto] converts
    (first kind a string, no ancestor without identifier). *)
Theorem valueToProperty_succeeds (v : value) :
  (exists p, valueToProperty v = Ok p) <-> encodable v.
Proof. apply encodable_converts. Qed.

Lemma any_of_In {A : Type} (P : A -> Prop) (l : list A) (a : A) :
  In a l -> P a -> any_of P l.
Proof.
  induction l as [|b l IH]; cbn [In any_of]; [tauto|].
  intros [-> | Hin] Ha; [left; exact Ha|right; apply IH; assumption].
Qed.

(** X8: whatever [valueToProperty] throws is the unsupported-value error
    for an [undefined], a [null] or an empty record that is found in the
    value, or what [keyToKeyProto] throws for a key that is found in it,
    one of the two [MalformedKey] errors. *)
Theorem valueToProperty_throws (v : value) (e : error) :
  valueToProperty v = Throw e ->
  (exists u, e = UnsupportedFieldValue u /\ unsupported u /\ found_in u v) \/
  (exists k, found_in (VKey k) v /\ keyToKeyProto k = Throw e /\
             MalformedKey e).
Proof.
  revert e.
  induction v as [p | t | b | n | n | items IH | k | fields IH] using value_ind;
    intros e; cbn [valueToProperty]; try discriminate.
  - destruct p as [| | b | n | s]; try discriminate.
    + intros [= <-]. left. eexists.
      split; [reflexivity|]. split; [left; reflexivity|left; reflexivity].
    + intros [= <-]. left. eexists.
      split; [reflexivity|].
      split; [right; left; reflexivity|left; reflexivity].
    + destruct (num_eqb (rem1 n) (Fin 0 0)); discriminate.
  - destruct (mapM valueToProperty items) as [ps|e'] eqn:Hm; cbn [bind];
      [discriminate|].
    intros [= ->]. destruct (mapM_Throw _ _ _ Hm) as (a & Hin & Ha).
    destruct (list_all_In _ _ IH a Hin e Ha)
      as [(u & He & Hu & Hf) | (k & Hf & Hk & He)].
    + left. exists u. split; [exact He|]. split; [exact Hu|].
      right. exact (any_of_In (found_in u) items a Hin Hf).
    + right. exists k. split; [|split; assumption].
      right. exact (any_of_In (found_in (VKey k)) items a Hin Hf).
  - destruct (keyToKeyProto k) as [proto|e'] eqn:Hk; cbn [bind];
      [discriminate|].
    intros [= ->]. right. exists k. split; [left; reflexivity|].
    split; [exact Hk|]. exact (keyToKeyProto_throws_MalformedKey k e Hk).
  - fold encode_field. destruct fields as [|kv fields].
    + intros [= <-]. left. eexists.
      split; [reflexivity|].
      split; [right; right; reflexivity|left; reflexivity].
    + change (0 <? length (kv :: fields))%nat with true. cbv iota.
      destruct (mapM encode_field (kv :: fields)) as [nps|e'] eqn:Hm;
        cbn [bind]; [discriminate|].
      intros [= ->]. destruct (mapM_Throw _ _ _ Hm) as (a & Hin & Ha).
      apply encode_field_Throw in Ha.
      destruct (fields_all_In _ _ IH a Hin e Ha)
        as [(u & He & Hu & Hf) | (k & Hf & Hk & He)].
      * left. exists u. split; [exact He|]. split; [exact Hu|].
        right.
        exact (any_of_In (fun kv => found_in u (snd kv)) _ a Hin Hf).
      * right. exists k. split; [|split; assumption].
        right.
        exact (any_of_In (fun kv => found_in (VKey k) (snd kv)) _ a Hin Hf).
Qed.

Lemma valueToProperty_throws_witness :
  valueToProperty (VArray [VPrim (PStr "a"); VObject [("b", VPrim PNull)]])
  = Throw (UnsupportedFieldValue (VPrim PNull)) /\
  ((exists u, UnsupportedFieldValue (VPrim PNull) = UnsupportedFieldValue u
              /\ unsupported u
              /\ found_in u (VArray [VPrim (PStr "a");
                                     VObject [("b", VPrim PNull)]]))
   \/ (exists k, found_in (VKey k)
                          (VArray [VPrim (PStr "a");
                                   VObject [("b", VPrim PNull)]])
                 /\ keyToKeyProto k
                    = Throw (UnsupportedFieldValue (VPrim PNull))
                 /\ MalformedKey (UnsupportedFieldValue (VPrim PNull)))).
Proof.
  split; [reflexivity|].
  exact (valueToProperty_throws
           (VArray [VPrim (PStr "a"); VObject [("b", VPrim PNull)]])
           _ eq_refl).
Defined.

(** X9: a property that [valueToProperty] returns has exactly one value
    field present, the one that belongs to the kind of value, so that
    the order in which [propertyToValue] tests the fields plays no part
    in decoding it; [indexed] is set, to [false], on the property of a
    record and on no other. *)
Theorem valueToProperty_one_field (v : value) (p : property) :
  valueToProperty v = Ok p ->
  exists f,
    field_of v = Some f /\
    List.filter (present p) precedence = [f] /\
    indexed p = match f with
                | entity_field => Just false
                | _ => Undefined
                end.
Proof.
  destruct v as [[| | b | n | s] | t | b | n | n | items | k | fields];
    cbn [valueToProperty field_of]; try discriminate.
  - intros [= <-]. eexists. repeat split.
  - rewrite rem1_integral. destruct (integral n); intros [= <-];
      eexists; repeat split.
  - intros [= <-]. eexists. repeat split.
  - intros [= <-]. eexists. repeat split.
  - intros [= <-]. eexists. repeat split.
  - intros [= <-]. eexists. repeat split.
  - intros [= <-]. eexists. repeat split.
  - destruct (mapM valueToProperty items); cbn [bind]; [|discriminate].
    intros [= <-]. eexists. repeat split.
  - destruct (keyToKeyProto k); cbn [bind]; [|discriminate].
    intros [= <-]. eexists. repeat split.
  - destruct (0 <? length fields)%nat; [|discriminate].
    destruct (mapM _ fields); cbn [bind]; [|discriminate].
    intros [= <-]. eexists. repeat split.
Qed.

Lemma valueToProperty_one_field_witness :
  valueToProperty (VArray [VPrim (PStr "a")])
  = Ok (set_list_value empty_property
          (Just [set_string_value empty_property (PStr "a")])) /\
  exists f,
    field_of (VArray [VPrim (PStr "a")]) = Some f /\
    List.filter (present (set_list_value empty_property
                       (Just [set_string_value empty_property (PStr "a")])))
           precedence = [f] /\
    indexed (set_list_value empty_property
               (Just [set_string_value empty_property (PStr "a")]))
    = match f with
      | entity_field => Just false
      | _ => Undefined
      end.
Proof.
  split; [reflexivity|].
  exact (valueToProperty_one_field (VArray [VPrim (PStr "a")]) _ eq_refl).
Defined.

Section Decoded.

Lemma strip_zeros_exp (fuel : nat) :
  forall m e, e <= snd (strip_zeros fuel m e).
Proof.
  induction fuel as [|fuel IH]; intros m e; cbn [strip_zeros]; [simpl; lia|].
  destruct (m mod 10 =? 0); [|simpl; lia].
  specialize (IH (m / 10) (e + 1)). lia.
Qed.

Lemma finite_integral (z : Z) : integral (finite z 0) = true.
Proof.
  unfold finite. destruct (z =? 0); [reflexivity|].
  pose proof (strip_zeros_exp (S (Z.to_nat (Z.log2 (Z.abs z)))) z 0) as He.
  destruct (strip_zeros _ z 0) as [m' e']. cbn [snd] in He.
  unfold integral. replace (0 <=? e') with true; [reflexivity|].
  symmetry. apply Z.leb_le. exact He.
Qed.

Lemma TimeClip_integral (t : number) :
  TimeClip t = NaN \/ integral (TimeClip t) = true.
Proof.
  destruct t as [| s | m e]; [left; reflexivity|left; reflexivity|].
  unfold TimeClip. destruct (num_gtb _ _ || num_gtb _ _);
    [left; reflexivity|right].
  unfold trunc. destruct (0 <=? e) eqn:He; [|apply finite_integral].
  unfold integral. rewrite He. reflexivity.
Qed.

Lemma update_In (acc : list (string * value)) (k : string) (v : value)
      (k' : string) :
  In k' (map fst (update acc k v)) <-> k' = k \/ In k' (map fst acc).
Proof.
  induction acc as [|[a x] acc IH]; cbn [update map fst In];
    [intuition congruence|].
  destruct (String.eqb_spec a k) as [-> | Hne]; cbn [map fst In].
  - intuition congruence.
  - rewrite IH. intuition congruence.
Qed.

Lemma update_NoDup (acc : list (string * value)) (k : string) (v : value) :
  NoDup (map fst acc) -> NoDup (map fst (update acc k v)).
Proof.
  induction acc as [|[a x] acc IH]; cbn [update map fst].
  - intros _. constructor; [intros []|constructor].
  - intros Hdup. inversion Hdup as [|a' l Hnotin Hrest]; subst.
    destruct (String.eqb_spec a k) as [-> | Hne]; cbn [map fst].
    + constructor; assumption.
    + constructor; [|apply IH; exact Hrest].
      rewrite update_In. intros [-> | Hin]; [congruence|contradiction].
Qed.

Lemma update_all_of (P : value -> Prop) (acc : list (string * value))
      (k : string) (v : value) :
  all_of (fun kv => P (snd kv)) acc -> P v ->
  all_of (fun kv => P (snd kv)) (update acc k v).
Proof.
  intros Hacc Hv. induction acc as [|[a x] acc IH]; cbn [update all_of snd].
  - split; [exact Hv|exact I].
  - cbn [all_of snd] in Hacc. destruct Hacc as [Hx Hacc].
    destruct (String.eqb a k); cbn [all_of snd];
      [split; [exact Hv|exact Hacc]|].
    split; [exact Hx|apply IH; exact Hacc].
Qed.

Lemma assign_decoded (acc : list (string * value)) (k : string) (v : value)
      (acc' : list (string * value)) :
  decoded (VObject acc) -> decoded v -> assign acc k v = Ok acc' ->
  decoded (VObject acc').
Proof.
  cbn [decoded]. intros (Hdup & Hproto & Hall) Hv. unfold assign.
  destruct (String.eqb_spec k "__proto__") as [-> | Hne].
  { destruct v as [[| | ? | ? | ?] | | | | | | |]; try discriminate;
      intros [= <-]; tauto. }
  intros [= <-].
  split; [apply update_NoDup; exact Hdup|].
  split; [|apply update_all_of; assumption].
  rewrite update_In. intros [H | H]; [congruence|contradiction].
Qed.

Lemma reduce_decoded (properties : list (named property)) :
  (forall np, In np properties ->
              forall v, propertyToValue (p_value np) = Ok v -> decoded v) ->
  forall acc v,
    decoded (VObject acc) ->
    reduce_properties propertyToValue properties acc = Ok v -> decoded v.
Proof.
  induction properties as [|np rest IH]; intros Hall acc v Hacc.
  - cbn [reduce_properties]. intros [= <-]. exact Hacc.
  - cbn [reduce_properties].
    destruct (propertyToValue (p_value np)) as [x|e] eqn:Hx; cbn [bind];
      [|discriminate].
    destruct (assign acc (p_name np) x) as [acc'|e] eqn:Hassign; cbn [bind];
      [|discriminate].
    apply IH.
    + intros np' Hin. apply Hall. right. exact Hin.
    + apply (assign_decoded acc (p_name np) x acc' Hacc); [|exact Hassign].
      apply (Hall np (or_introl eq_refl)). exact Hx.
Qed.

Lemma mapM_decoded (l : list property) :
  (forall p, In p l -> forall v, propertyToValue p = Ok v -> decoded v) ->
  forall vs, mapM propertyToValue l = Ok vs -> all_of decoded vs.
Proof.
  induction l as [|p l IH]; intros Hall vs; cbn [mapM].
  - intros [= <-]. exact I.
  - destruct (propertyToValue p) as [x|e] eqn:Hx; cbn [bind]; [|discriminate].
    destruct (mapM propertyToValue l) as [xs|e] eqn:Hxs; cbn [bind];
      [|discriminate].
    intros [= <-]. cbn [all_of]. split.
    + apply (Hall p (or_introl eq_refl)). exact Hx.
    + apply IH; [|reflexivity]. intros p' Hin. apply Hall. right. exact Hin.
Qed.

Lemma named_all_In (P : property -> Prop) (l : list (named property)) :
  list_all (named property) (named_all property P) l ->
  forall np, In np l -> P (p_value np).
Proof.
  induction 1 as [|np Hnp l _ IH]; intros b Hin; [contradiction|].
  destruct Hin as [<- | Hin]; [|apply IH; exact Hin].
  destruct Hnp as [n x Hx]. exact Hx.
Qed.

Lemma decoded_shape (p : property) :
  forall v, propertyToValue p = Ok v -> decoded v.
Proof.
  induction p as [bv iv dv sv blob ts kv ev IHe lv IHl ix] using property_ind.
  intros v.
  cbn [propertyToValue integer_value double_value string_value blob_value
       timestamp_microseconds_value key_value entity_value boolean_value
       list_value].
  destruct (prim_exists iv); [intros [= <-]; exact I|].
  destruct (prim_exists dv); [intros [= <-]; exact I|].
  destruct (prim_exists sv); [intros [= <-]; exact I|].
  assert (Hrest :
    (if prim_exists ts
     then Ok (Date (over1000 (parseInt10 (toString ts))))
     else
       match kv with
       | Just proto => k <- keyFromKeyProto proto ;; Ok (VKey k)
       | _ =>
           match ev with
           | Just proto => entityFromEntityProto_with propertyToValue proto
           | _ =>
               if prim_exists bv then Ok (VPrim bv)
               else
                 match lv with
                 | Just l => list <- mapM propertyToValue l ;; Ok (VArray list)
                 | _ => Ok (VPrim PUndefined)
                 end
           end
       end) = Ok v -> decoded v).
  { destruct (prim_exists ts).
    { intros [= <-]. apply TimeClip_integral. }
    assert (Hentity :
      match ev with
      | Just proto => entityFromEntityProto_with propertyToValue proto
      | _ =>
          if prim_exists bv then Ok (VPrim bv)
          else
            match lv with
            | Just l => list <- mapM propertyToValue l ;; Ok (VArray list)
            | _ => Ok (VPrim PUndefined)
            end
      end = Ok v -> decoded v).
    { assert (Hlist :
        (if prim_exists bv then Ok (VPrim bv)
         else
           match lv with
           | Just l => list <- mapM propertyToValue l ;; Ok (VArray list)
           | _ => Ok (VPrim PUndefined)
           end) = Ok v -> decoded v).
      { destruct (prim_exists bv); [intros [= <-]; exact I|].
        destruct IHl as [| | l Hl]; try (intros [= <-]; exact I).
        destruct (mapM propertyToValue l) as [vs|e] eqn:Hvs; cbn [bind];
          [|discriminate].
        intros [= <-]. cbn [decoded].
        apply (mapM_decoded l); [|exact Hvs].
        intros p Hin. exact (list_all_In _ _ Hl p Hin). }
      destruct IHe as [| | e He]; try exact Hlist.
      destruct He as [k props Hprops]. unfold entityFromEntityProto_with.
      cbn [e_property]. apply reduce_decoded.
      - intros np Hin. exact (named_all_In _ _ Hprops np Hin).
      - cbn [decoded map all_of]. split; [constructor|]. tauto. }
    destruct kv as [| | proto]; try exact Hentity.
    destruct (keyFromKeyProto proto); cbn [bind]; [|discriminate].
    intros [= <-]. exact I. }
  destruct blob as [| | b]; try exact Hrest.
  destruct b; cbn [toBuffer]; [discriminate|intros [= <-]; exact I].
Qed.

End Decoded.



(** ** The entity codec *)

Section Entities.

Lemma faithful_fields (fields : list (string * value)) :
  all_of (fun kv => faithful (snd kv)) fields ->
  all_of (fun kv => roundtrip (snd kv) = Ok (snd kv)) fields.
Proof.
  rewrite !all_of_In. intros H kv Hin. apply faithful_roundtrip.
  apply H. exact Hin.
Qed.

Lemma record_roundtrip (entity : list (string * value)) :
  faithful_record entity ->
  exists proto,
    entityToEntityProto entity = Ok proto /\
    e_key proto = Null /\
    map p_name (e_property proto) = map fst entity /\
    entityFromEntityProto proto = Ok (VObject entity).
Proof.
  intros (Hdup & Hproto & Hall).
  destruct (fields_roundtrip entity (faithful_fields _ Hall) Hproto)
    as (nps & Hnps & Hreduce).
  exists (mkEntityProto Null nps). unfold entityToEntityProto.
  fold encode_field. rewrite Hnps. split; [reflexivity|].
  split; [reflexivity|]. split.
  - apply (mapM_Ok_map encode_field fst p_name entity nps); [|exact Hnps].
    intros [k x] np. cbn [encode_field fst].
    destruct (valueToProperty x); cbn [bind]; [|discriminate].
    intros [= <-]. reflexivity.
  - apply (Hreduce []). exact Hdup.
Qed.

Lemma find_app {A : Type} (f : A -> bool) (l l' : list A) :
  find f (l ++ l')
  = match find f l with
    | Some a => Some a
    | None => find f l'
    end.
Proof.
  induction l as [|a l IH]; [reflexivity|].
  cbn [app find]. destruct (f a); [reflexivity|exact IH].
Qed.

Lemma own_property_update (acc : list (string * value)) (n : string)
      (x : value) (k : string) :
  own_property (update acc n x) k
  = if String.eqb n k then Some x else own_property acc k.
Proof.
  induction acc as [|[a y] acc IH]; cbn [update own_property].
  - reflexivity.
  - destruct (String.eqb_spec a n) as [-> | Han]; cbn [own_property].
    + destruct (String.eqb n k); reflexivity.
    + rewrite IH. destruct (String.eqb_spec a k) as [-> | Hak];
        [|reflexivity].
      destruct (String.eqb_spec n k) as [-> | _]; [congruence|reflexivity].
Qed.

Lemma reduce_last_wins (properties : list (named property)) :
  forall acc fields k,
    k <> "__proto__" ->
    reduce_properties propertyToValue properties acc = Ok (VObject fields) ->
    own_property fields k
    = match find (fun np => String.eqb (p_name np) k) (rev properties) with
      | Some np => decoded_value np
      | None => own_property acc k
      end.
Proof.
  induction properties as [|np rest IH]; intros acc fields k Hk.
  - cbn [reduce_properties rev find]. intros [= <-]. reflexivity.
  - cbn [reduce_properties rev].
    destruct (propertyToValue (p_value np)) as [x|e] eqn:Hx; cbn [bind];
      [|discriminate].
    destruct (assign acc (p_name np) x) as [acc'|e] eqn:Hassign; cbn [bind];
      [|discriminate].
    intros Hreduce. rewrite (IH _ _ k Hk Hreduce), find_app.
    destruct (find _ (rev rest)); [reflexivity|].
    cbn [find]. unfold assign in Hassign.
    destruct (String.eqb_spec (p_name np) "__proto__") as [Hp | Hp].
    + destruct (String.eqb_spec (p_name np) k); [congruence|].
      destruct x as [[| | ? | ? | ?] | | | | | | |]; inversion Hassign;
        reflexivity.
    + injection Hassign as <-. rewrite own_property_update.
      destruct (String.eqb (p_name np) k); [|reflexivity].
      unfold decoded_value. rewrite Hx. reflexivity.
Qed.

Lemma reduce_is_object (properties : list (named property)) :
  forall acc v,
    reduce_properties propertyToValue properties acc = Ok v ->
    exists fields, v = VObject fields.
Proof.
  induction properties as [|np rest IH]; intros acc v; cbn [reduce_properties].
  - intros [= <-]. eexists. reflexivity.
  - destruct (propertyToValue (p_value np)); cbn [bind]; [|discriminate].
    destruct (assign acc (p_name np) a); cbn [bind]; [|discriminate].
    apply IH.
Qed.

End Entities.

(** X11: a record survives the entity codec.  For a record, possibly
    empty, of faithful values under distinct names other than
    [__proto__], [entityToEntityProto] returns an entity with key [null]
    and one property for each field, under the same names in the same
    order, and [entityFromEntityProto] maps that entity back to the
    record. *)
Theorem entity_roundtrip (entity : list (string * value)) :
  faithful_record entity ->
  exists proto,
    entityToEntityProto entity = Ok proto /\
    e_key proto = Null /\
    map p_name (e_property proto) = map fst entity /\
    entityFromEntityProto proto = Ok (VObject entity).
Proof. apply record_roundtrip. Qed.

Lemma entity_roundtrip_witness :
  let entity := [("name", VPrim (PStr "Ada")); ("legit", VPrim (PBool true))] in
  faithful_record entity /\
  exists proto,
    entityToEntityProto entity = Ok proto /\
    e_key proto = Null /\
    map p_name (e_property proto) = map fst entity /\
    entityFromEntityProto proto = Ok (VObject entity).
Proof.
  cbv zeta.
  assert (H : faithful_record
                [("name", VPrim (PStr "Ada")); ("legit", VPrim (PBool true))]).
  { unfold faithful_record. cbn [map fst all_of snd faithful]. closed. }
  split; [exact H|]. exact (entity_roundtrip _ H).
Defined.

(** X12: when [entityFromEntityProto] returns a plain record (no property
    named [__proto__] holds an object, which would become the prototype
    of the record), a name other than [__proto__] holds in it the
    decoded value of the last property of that name, and is absent when
    no property has that name: of properties with the same name the
    last one wins.  A property named [__proto__] that holds a primitive
    leaves no field. *)
Theorem entityFromEntityProto_last_wins (proto : entityProto) (v : value) :
  entityFromEntityProto proto = Ok v ->
  exists fields,
    v = VObject fields /\
    ~ In "__proto__" (map fst fields) /\
    forall k, k <> "__proto__" ->
      own_property fields k
      = match find (fun np => String.eqb (p_name np) k)
                   (rev (e_property proto)) with
        | Some np => decoded_value np
        | None => None
        end.
Proof.
  intros Hv. pose proof (decoded_shape
                           (set_entity_value empty_property (Just proto)) v Hv)
    as Hshape.
  unfold entityFromEntityProto, entityFromEntityProto_with in Hv.
  destruct (reduce_is_object _ _ _ Hv) as (fields & ->).
  exists fields. split; [reflexivity|]. split.
  - cbn [decoded] in Hshape. tauto.
  - intros k Hk. exact (reduce_last_wins _ _ _ k Hk Hv).
Qed.

Lemma entityFromEntityProto_last_wins_witness :
  let proto : entityProto :=
    mkEntityProto Null
      [mkNamed "a" (set_string_value empty_property (PStr "first"));
       mkNamed "b" (set_boolean_value empty_property (PBool true));
       mkNamed "__proto__" (set_string_value empty_property (PStr "p"));
       mkNamed "a" (set_string_value empty_property (PStr "last"))] in
  entityFromEntityProto proto
  = Ok (VObject [("a", VPrim (PStr "last")); ("b", VPrim (PBool true))]) /\
  exists fields,
    VObject [("a", VPrim (PStr "last")); ("b", VPrim (PBool true))]
    = VObject fields /\
    ~ In "__proto__" (map fst fields) /\
    forall k, k <> "__proto__" ->
      own_property fields k
      = match find (fun np => String.eqb (p_name np) k)
                   (rev (e_property proto)) with
        | Some np => decoded_value np
        | None => None
        end.
Proof.
  cbv zeta. split; [reflexivity|].
  exact (entityFromEntityProto_last_wins
           (mkEntityProto Null
              [mkNamed "a" (set_string_value empty_property (PStr "first"));
               mkNamed "b" (set_boolean_value empty_property (PBool true));
               mkNamed "__proto__"
                       (set_string_value empty_property (PStr "p"));
               mkNamed "a" (set_string_value empty_property (PStr "last"))])
           (VObject [("a", VPrim (PStr "last")); ("b", VPrim (PBool true))])
           eq_refl).
Defined.

(** ** Query results and queries *)

Section Results.

Lemma stored_formatted (ke : key * list (string * value)) :
  constructed (fst ke) -> faithful_record (snd ke) ->
  exists r,
    stored ke = Ok r /\
    keyFromKeyProto_field (e_key (er_entity r)) = Ok (fst ke) /\
    entityFromEntityProto (er_entity r) = Ok (VObject (snd ke)).
Proof.
  intros Hk He.
  destruct (keyFromKeyProto_keyToKeyProto _ Hk) as (proto & Hto & Hfrom).
  destruct (record_roundtrip _ He) as (entity & Hentity & _ & _ & Hback).
  exists (mkEntityResult (mkEntityProto (Just proto) (e_property entity))).
  unfold stored. rewrite Hto, Hentity. split; [reflexivity|].
  split; [exact Hfrom|]. exact Hback.
Qed.

Lemma formatArray_stored (l : list (key * list (string * value))) :
  all_of (fun ke => constructed (fst ke) /\ faithful_record (snd ke)) l ->
  exists results,
    mapM stored l = Ok results /\
    formatArray results
    = Ok (map (fun ke => mkEntityObject (fst ke) (VObject (snd ke))) l).
Proof.
  induction l as [|ke l IH]; cbn [all_of].
  - intros _. exists []. split; reflexivity.
  - intros [[Hk He] Hl].
    destruct (stored_formatted ke Hk He) as (r & Hr & Hkey & Hdata).
    destruct (IH Hl) as (results & Hresults & Hformat).
    exists (r :: results). cbn [mapM]. rewrite Hr, Hresults.
    split; [reflexivity|]. unfold formatArray in *. cbn [mapM map].
    rewrite Hkey, Hdata, Hformat. reflexivity.
Qed.

End Results.

(** X13: stored entities come back from [formatArray].  For keys of the
    constructor and records of faithful values, the response array
    that holds, for each, the protocol form of the key with the
    properties of the record is formatted into the same keys and
    records, in the same order; an empty response gives an empty
    array. *)
Theorem formatArray_roundtrip (l : list (key * list (string * value))) :
  all_of (fun ke => constructed (fst ke) /\ faithful_record (snd ke)) l ->
  (results <- mapM stored l ;; formatArray results)
  = Ok (map (fun ke => mkEntityObject (fst ke) (VObject (snd ke))) l).
Proof.
  intros Hl. destruct (formatArray_stored l Hl) as (results & -> & Hformat).
  exact Hformat.
Qed.

Lemma formatArray_roundtrip_witness :
  let l :=
    [(fst (Key (mkOptions (PStr "ns") [PStr "Company"; PNum (Fin 123 0)])),
      [("name", VPrim (PStr "Ada")); ("legit", VPrim (PBool true))]);
     (fst (Key (mkOptions PUndefined [PStr "Company"; PStr "Google"])),
      [])] in
  all_of (fun ke => constructed (fst ke) /\ faithful_record (snd ke)) l /\
  (results <- mapM stored l ;; formatArray results)
  = Ok (map (fun ke => mkEntityObject (fst ke) (VObject (snd ke))) l).
Proof.
  cbv zeta.
  assert (H : all_of
    (fun ke => constructed (fst ke) /\ faithful_record (snd ke))
    [(fst (Key (mkOptions (PStr "ns") [PStr "Company"; PNum (Fin 123 0)])),
      [("name", VPrim (PStr "Ada")); ("legit", VPrim (PBool true))]);
     (fst (Key (mkOptions PUndefined [PStr "Company"; PStr "Google"])),
      [])]).
  { cbn [all_of fst snd]. unfold faithful_record.
    cbn [map fst all_of snd faithful].
    repeat match goal with |- _ /\ _ => split end; closed. }
  split; [exact H|]. exact (formatArray_roundtrip _ H).
Defined.

Section Filters.

Lemma filterToPropertyFilter_convertible (f : filter) :
  keyed f ->
  (exists pf, filterToPropertyFilter f = Ok pf) <-> convertible f.
Proof.
  unfold filterToPropertyFilter, convertible, keyed.
  destruct (String.eqb (f_name f) "__key__").
  - intros Hkey. destruct (Hkey eq_refl) as [k ->].
    cbn [keyToKeyProto_value].
    pose proof (encodable_converts (VKey k)) as Hk.
    cbn [valueToProperty] in Hk.
    destruct (keyToKeyProto k) as [proto|e]; cbn [bind] in *.
    + split; [|intros _; eexists; reflexivity].
      intros _. exists k. split; [reflexivity|]. apply Hk.
      eexists. reflexivity.
    + split; [intros [pf H]; discriminate|].
      intros (k' & [= <-] & Henc). apply Hk in Henc.
      destruct Henc as [p H]. discriminate.
  - intros _. rewrite <- encodable_converts.
    destruct (valueToProperty (f_val f)); cbn [bind].
    + split; intros _; eexists; reflexivity.
    + split; intros [x H]; discriminate.
Qed.

Lemma queryToQueryProto_mapM (q : query) :
  (exists proto, queryToQueryProto q = Ok proto) <->
  (exists pfs, mapM filterToPropertyFilter (filters q) = Ok pfs).
Proof.
  unfold queryToQueryProto.
  destruct (0 <? length (filters q))%nat eqn:Hlen.
  - destruct (mapM filterToPropertyFilter (filters q)); cbn [bind].
    + split; intros _; eexists; reflexivity.
    + split; intros [x H]; discriminate.
  - apply Nat.ltb_ge in Hlen.
    destruct (filters q); [|simpl in Hlen; lia].
    cbn [bind mapM]. split; intros _; eexists; reflexivity.
Qed.

End Filters.

(** X14: for a query whose filters on [__key__] hold [Key]s,
    [queryToQueryProto] returns a query exactly when the value of every
    filter is convertible: a key that [keyToKeyProto] converts under the
    name [__key__], a value that [valueToProperty] converts under any
    other name.  A query without filters always compiles, whatever its
    kinds, orders, signs and cursors. *)
Theorem queryToQueryProto_succeeds (q : query) :
  (all_of keyed (filters q) ->
   ((exists proto, queryToQueryProto q = Ok proto) <->
    all_of convertible (filters q))) /\
  (filters q = [] -> exists proto, queryToQueryProto q = Ok proto).
Proof.
  split.
  - intros Hkeyed. rewrite queryToQueryProto_mapM, mapM_Ok_iff, !all_of_In.
    rewrite all_of_In in Hkeyed.
    split; intros H f Hin;
      apply (filterToPropertyFilter_convertible f (Hkeyed f Hin));
      apply H; exact Hin.
  - intros Hnil. apply queryToQueryProto_mapM. rewrite Hnil.
    eexists. reflexivity.
Qed.

Lemma queryToQueryProto_succeeds_witness :
  all_of keyed
    [mkFilter "__key__" "HAS_ANCESTOR"
       (VKey (fst (Key (mkOptions PUndefined
                          [PStr "Company"; PNum (Fin 0 0);
                           PStr "Branch"; PNum (Fin 1 0)]))));
     mkFilter "name" "=" (VPrim (PStr "x"))] /\
  ((exists proto,
       queryToQueryProto
         (mkQuery PUndefined ["Kind"]
            [mkFilter "__key__" "HAS_ANCESTOR"
               (VKey (fst (Key (mkOptions PUndefined
                                  [PStr "Company"; PNum (Fin 0 0);
                                   PStr "Branch"; PNum (Fin 1 0)]))));
             mkFilter "name" "=" (VPrim (PStr "x"))]
            [] [] [] Null Null (Fin (-1) 0) (Fin (-1) 0))
       = Ok proto) <->
   all_of convertible
     [mkFilter "__key__" "HAS_ANCESTOR"
        (VKey (fst (Key (mkOptions PUndefined
                           [PStr "Company"; PNum (Fin 0 0);
                            PStr "Branch"; PNum (Fin 1 0)]))));
      mkFilter "name" "=" (VPrim (PStr "x"))]).
Proof.
  assert (H : all_of keyed
    [mkFilter "__key__" "HAS_ANCESTOR"
       (VKey (fst (Key (mkOptions PUndefined
                          [PStr "Company"; PNum (Fin 0 0);
                           PStr "Branch"; PNum (Fin 1 0)]))));
     mkFilter "name" "=" (VPrim (PStr "x"))]).
  { cbn [all_of]. unfold keyed. cbn [f_name f_val]. split; [|split].
    - intros _. eexists. reflexivity.
    - discriminate.
    - exact I. }
  split; [exact H|].
  exact (proj1 (queryToQueryProto_succeeds
                  (mkQuery PUndefined ["Kind"]
                     [mkFilter "__key__" "HAS_ANCESTOR"
                        (VKey (fst (Key (mkOptions PUndefined
                                           [PStr "Company"; PNum (Fin 0 0);
                                            PStr "Branch"; PNum (Fin 1 0)]))));
                      mkFilter "name" "=" (VPrim (PStr "x"))]
                     [] [] [] Null Null (Fin (-1) 0) (Fin (-1) 0))) H).
Defined.

(** A filter on [__key__] need not hold a [Key]: a record with a [path]
    is converted like one, while a string has no [path] to index. *)
Example key_like_record_compiles :
  queryToQueryProto
    (mkQuery PUndefined ["Kind"]
       [mkFilter "__key__" "="
          (VObject [("path", VArray [VPrim (PStr "Kind");
                                     VPrim (PNum (Fin 1 0))])])]
       [] [] [] Null Null (Fin (-1) 0) (Fin (-1) 0))
  = Ok (mkQueryProto
          [] [mkReference "Kind"]
          (Some (mkCompositeFilter
                   [mkPropertyFilter
                      (mkReference "__key__") (Found "EQUAL")
                      {| boolean_value := PUndefined;
                         integer_value := PUndefined;
                         double_value := PUndefined;
                         string_value := PUndefined;
                         blob_value := Undefined;
                         timestamp_microseconds_value := PUndefined;
                         key_value :=
                           Just (mkKeyProto
                                   [mkPathElement (PStr "Kind")
                                                  (PNum (Fin 1 0)) PUndefined]
                                   None);
                         entity_value := Undefined;
                         list_value := Undefined;
                         indexed := Undefined |}]
                   "AND"))
          [] [] None None None None) /\
  queryToQueryProto
    (mkQuery PUndefined ["Kind"]
       [mkFilter "__key__" "=" (VPrim (PStr "Kind"))]
       [] [] [] Null Null (Fin (-1) 0) (Fin (-1) 0))
  = Throw (TypeError "Cannot read property '0' of undefined").
Proof. split; reflexivity. Qed.

(** ** What the constructor assigns, and decoding what was encoded *)

Section Assigned.

Lemma segment_assigned (ns x k : prim) (p : option key) :
  assigned (segment ns x k p).
Proof.
  unfold assigned, segment. cbn [id name].
  destruct (is_number x) eqn:Hn; [left; split; [exact Hn|reflexivity]|].
  destruct (is_string x) eqn:Hs; [right; left; split; [exact Hs|reflexivity]|].
  right. right. split; reflexivity.
Qed.

End Assigned.

(** X15: in a key that the constructor returns, and in every ancestor of
    it, the id is a number or unset, the name is a string or unset, and
    the two are never both set, whatever the path holds. *)
Theorem Key_never_both (o : options) :
  assigned (fst (Key o)) /\
  (forall a : key, ancestor a (fst (Key o)) -> assigned a).
Proof.
  remember (length (opt_path o)) as n eqn:Hn. revert o Hn.
  induction n as [n IH] using lt_wf_ind. intros o Hn.
  rewrite Key_body. cbv zeta.
  pose proof (pops_cases (opt_path o)) as Hc. cbv zeta in Hc.
  destruct (pop (snd (pop_identifier (opt_path o)))) as [k rest].
  simpl in Hc. destruct rest as [|x rest]; cbn [fst].
  - split; [apply segment_assigned|].
    intros a Hanc. inversion Hanc as [c Hp | p c Hp _]; discriminate.
  - assert (Hlen : (length (x :: rest) < n)%nat).
    { destruct Hc as [(_ & _ & _ & Hnil) | [(_ & Hl) | (_ & _ & Hl)]];
        [discriminate| |]; rewrite Hn, Hl, length_app; simpl; lia. }
    destruct (IH _ Hlen (mkOptions (opt_namespace o) (x :: rest)) eq_refl)
      as (Hown & Hanc).
    split; [apply segment_assigned|]. intros a Ha.
    destruct (ancestor_inv a _ _ Ha eq_refl) as [-> | Ha']; auto.
Qed.

Section Decodable.

Lemma element_identifier_truthy (s : prim * prim) :
  unidentified s = false -> truthy (element_identifier (element s)) = true.
Proof.
  destruct s as [k val]. unfold unidentified, element, element_identifier.
  cbn [snd]. intros Ht. apply negb_false_iff in Ht. rewrite Ht.
  destruct (is_number val) eqn:Hn; cbn [pe_id pe_name].
  - destruct val; try discriminate. cbn [ToNumber]. unfold or_else.
    rewrite Ht. exact Ht.
  - cbn [ToNumber]. exact Ht.
Qed.

(** The protocol form of a key is always read back as some key. *)
Lemma keyFromKeyProto_of_keyToKeyProto (k : key) (proto : keyProto) :
  keyToKeyProto k = Ok proto -> exists k', keyFromKeyProto proto = Ok k'.
Proof.
  rewrite keyToKeyProto_segments.
  destruct (negb (is_string (root_kind k))); [discriminate|].
  destruct (existsb unidentified (ancestors k)) eqn:Hanc; [discriminate|].
  intros [= <-]. rewrite keyFromKeyProto_closed. cbn [path_element].
  rewrite segments_ancestors, map_app. cbn [map]. rewrite removelast_last.
  replace (existsb (fun pe => negb (truthy (element_identifier pe)))
                   (map element (ancestors k))) with false;
    [eexists; reflexivity|].
  symmetry. apply not_true_is_false. intros Hex.
  apply existsb_exists in Hex. destruct Hex as (pe & Hin & Hpe).
  apply in_map_iff in Hin. destruct Hin as (s & <- & Hin).
  assert (Hs : unidentified s = false).
  { destruct (unidentified s) eqn:Hu; [|reflexivity].
    assert (existsb unidentified (ancestors k) = true)
      by (apply existsb_exists; exists s; split; assumption).
    congruence. }
  rewrite (element_identifier_truthy s Hs) in Hpe. discriminate.
Qed.

Lemma mapM_decodable (l : list value) :
  all_of (fun v => exists w, roundtrip v = Ok w) l ->
  exists ps ws, mapM valueToProperty l = Ok ps /\ mapM propertyToValue ps = Ok ws.
Proof.
  induction l as [|v l IH]; cbn [all_of].
  - intros _. exists [], []. split; reflexivity.
  - intros [[w Hv] Hl]. destruct (roundtrip_inv v w Hv) as (p & Hp & Hq).
    destruct (IH Hl) as (ps & ws & Hps & Hws). exists (p :: ps), (w :: ws).
    cbn [mapM]. rewrite Hp, Hps, Hq, Hws. split; reflexivity.
Qed.

Lemma fields_decodable (fields : list (string * value)) :
  all_of (fun kv => exists w, roundtrip (snd kv) = Ok w) fields ->
  ~ In "__proto__" (map fst fields) ->
  exists nps,
    mapM encode_field fields = Ok nps /\
    forall acc, exists w, reduce_properties propertyToValue nps acc = Ok w.
Proof.
  induction fields as [|[k v] fields IH]; cbn [all_of snd map fst In].
  - intros _ _. exists []. split; [reflexivity|].
    intros acc. eexists. reflexivity.
  - intros [[w Hv] Hl] Hproto.
    destruct (roundtrip_inv v w Hv) as (p & Hp & Hq).
    destruct (IH Hl ltac:(tauto)) as (nps & Hnps & Hreduce).
    exists (mkNamed k p :: nps).
    cbn [mapM encode_field]. rewrite Hp, Hnps. split; [reflexivity|].
    intros acc. cbn [reduce_properties p_value p_name]. rewrite Hq.
    cbn [bind]. unfold assign.
    destruct (String.eqb_spec k "__proto__") as [-> | _]; [tauto|].
    cbn [bind]. apply Hreduce.
Qed.

Lemma decodable (v : value) :
  encodable v -> buffer_free v -> proto_free v ->
  exists w, roundtrip v = Ok w.
Proof.
  induction v as [p | t | b | n | n | items IH | k | fields IH] using value_ind;
    cbn [encodable buffer_free proto_free].
  - destruct p as [| | b | n | s]; try contradiction; intros _ _ _.
    + eexists. reflexivity.
    + unfold roundtrip. cbn [valueToProperty].
      destruct (num_eqb (rem1 n) (Fin 0 0)); eexists; reflexivity.
    + eexists. reflexivity.
  - intros _ _ _. eexists. reflexivity.
  - contradiction.
  - intros _ _ _. eexists. reflexivity.
  - intros _ _ _. eexists. reflexivity.
  - intros Henc Hfree Hproto.
    assert (Hall : all_of (fun v => exists w, roundtrip v = Ok w) items).
    { rewrite all_of_In in *. intros a Hin.
      apply (list_all_In _ _ IH a Hin);
        [apply Henc|apply Hfree|apply Hproto]; exact Hin. }
    destruct (mapM_decodable items Hall) as (ps & ws & Hps & Hws).
    unfold roundtrip. cbn [valueToProperty]. rewrite Hps. cbn [bind].
    change (propertyToValue (set_list_value empty_property (Just ps)))
      with (list <- mapM propertyToValue ps ;; Ok (VArray list)).
    rewrite Hws. eexists. reflexivity.
  - intros Henc _ _.
    destruct (proj2 (encodable_converts (VKey k)) Henc) as [p Hp].
    cbn [valueToProperty] in Hp. unfold roundtrip. cbn [valueToProperty].
    destruct (keyToKeyProto k) as [proto|e] eqn:Hk; [|discriminate].
    cbn [bind].
    change (propertyToValue (set_key_value empty_property (Just proto)))
      with (k' <- keyFromKeyProto proto ;; Ok (VKey k')).
    destruct (keyFromKeyProto_of_keyToKeyProto k proto Hk) as [k' ->].
    eexists. reflexivity.
  - intros [Hne Henc] Hfree [Hnames Hproto].
    assert (Hall : all_of (fun kv => exists w, roundtrip (snd kv) = Ok w) fields).
    { rewrite all_of_In in *. intros kv Hin.
      apply (fields_all_In _ _ IH kv Hin);
        [apply Henc|apply Hfree|apply Hproto]; exact Hin. }
    destruct (fields_decodable fields Hall Hnames) as (nps & Hnps & Hreduce).
    unfold roundtrip. cbn [valueToProperty].
    replace (0 <? length fields)%nat with true
      by (destruct fields; [congruence|reflexivity]).
    fold encode_field. rewrite Hnps. cbn [bind].
    change (propertyToValue
              (set_indexed
                 (set_entity_value empty_property
                    (Just (mkEntityProto Undefined nps)))
                 (Just false)))
      with (reduce_properties propertyToValue nps []).
    apply Hreduce.
Qed.

End Decodable.

(** X16: for every value that is encodable and holds, at any depth, no
    [Buffer] and no field named [__proto__], [propertyToValue] returns a
    value from its encoding, and that value has the shape of a decoded
    value, without wrapper. *)
Theorem roundtrip_returns (v : value) :
  encodable v -> buffer_free v -> proto_free v ->
  exists w, roundtrip v = Ok w /\ decoded w.
Proof.
  intros Henc Hfree Hproto.
  destruct (decodable v Henc Hfree Hproto) as [w Hw]. exists w.
  split; [exact Hw|].
  destruct (roundtrip_inv v w Hw) as (p & _ & Hp).
  exact (decoded_shape p w Hp).
Qed.

Lemma roundtrip_returns_witness :
  let v :=
    VObject [("n", VInt (Fin 75 (-1)));
             ("k", VKey (mkKey (PStr "") (PNum (Fin 1 0)) (PBool true)
                               (PStr "Kind") None))] in
  encodable v /\ buffer_free v /\ proto_free v /\
  exists w, roundtrip v = Ok w /\ decoded w.
Proof.
  cbv zeta.
  assert (He : encodable
    (VObject [("n", VInt (Fin 75 (-1)));
              ("k", VKey (mkKey (PStr "") (PNum (Fin 1 0)) (PBool true)
                                (PStr "Kind") None))])).
  { cbn [encodable all_of snd]. closed. }
  assert (Hf : buffer_free
    (VObject [("n", VInt (Fin 75 (-1)));
              ("k", VKey (mkKey (PStr "") (PNum (Fin 1 0)) (PBool true)
                                (PStr "Kind") None))])).
  { cbn [buffer_free all_of snd]. closed. }
  assert (Hp : proto_free
    (VObject [("n", VInt (Fin 75 (-1)));
              ("k", VKey (mkKey (PStr "") (PNum (Fin 1 0)) (PBool true)
                                (PStr "Kind") None))])).
  { cbn [proto_free all_of snd map fst]. closed. }
  split; [exact He|]. split; [exact Hf|]. split; [exact Hp|].
  exact (roundtrip_returns _ He Hf Hp).
Defined.
